(** * EVChargeGym: the charging station [EV_Charger] (evsim/ev_charger.py)

    A shallow embedding of the class [EV_Charger] and proofs about its
    methods [__init__], [step], [get_state], [get_avg_user_satisfaction],
    [spawn_ev] and [reset].

    Modelling conventions.
    - Python numbers that carry prices, currents, powers and actions are
      rationals ([Q], compared with [==]): arithmetic is exact, the
      rounding of binary floating point is not represented.  Where the
      rounding decides a statement, the normalisation of the actions is
      taken in binary64 ([Module Binary64]).
    - Python integers that count (ports, vehicles, steps) are [Z]; list
      positions are [nat].
    - A method is a function from the object's state to the state it
      leaves behind together with an [outcome]: the value returned, or the
      exception raised.  The state of a raising call is the state at the
      raise, since the attributes assigned before it stay assigned.
    - The [print] statements of verbose mode write nothing the methods
      read back; only the local names they read are modelled, since
      reading an unbound one raises.
    - The vehicle class [EV] (evsim/ev.py) is not part of this
      development: its methods are the interface [Vehicle], and every
      general statement holds for all its instances. *)

From Stdlib Require Import ZArith QArith Qabs Qround Qminmax Lqa Lia Bool.
From Stdlib Require Import Floats.
From stdpp Require Import base list.

Local Open Scope Z_scope.
Local Open Scope Q_scope.

(** ** Numbers *)

(** [x < y] on Python numbers, as a boolean. *)
Definition Qlt_bool (x y : Q) : bool := negb (Qle_bool y x).

(** The builtin [sum]: start from 0 and add the items left to right. *)
Definition sum (l : list Q) : Q := fold_left Qplus l 0.

(** Round to the nearest integer, ties to the even one (the rule of the
    builtin [round]). *)
Definition round_half_even (x : Q) : Z :=
  let f := Qfloor x in
  match Qcompare (x - inject_Z f) (1 # 2) with
  | Lt => f
  | Gt => (f + 1)%Z
  | Eq => if Z.even f then f else (f + 1)%Z
  end.

(** [round(x, 5)]. *)
Definition round5 (x : Q) : Q :=
  inject_Z (round_half_even (x * 100000)) / 100000.

(** The tolerance of the over-current check, [0.0001]. *)
Definition tolerance : Q := 1 # 10000.

(** ** Exceptions and outcomes *)

(** The three [assert] statements of the class. *)
Inductive assertion : Type :=
| ActionsLength     (* assert (len(actions) == self.n_ports) *)
| ActionRange       (* assert action >= -1 and action <= 1 *)
| PortAvailable.    (* assert (self.n_evs_connected < self.n_ports) *)

Inductive exn : Type :=
| AssertionError (a : assertion)
| IndexError            (* a list indexed past its end *)
| AttributeError        (* a method called on None *)
| UnboundLocalError     (* a local variable read before assignment *)
| OverCurrent           (* the Exception raised by step *)
| ValueError.           (* list.index finds no item *)

Inductive outcome (A : Type) : Type :=
| Ok (a : A)
| Raise (e : exn).
Arguments Ok {A} a.
Arguments Raise {A} e.

(** ** Data *)

Inductive ChargerType : Type := AC | DC.

(** A vehicle object: the attribute [id], which [spawn_ev] assigns, and
    the rest of the object, which only the vehicle's own methods read. *)
Record EV (D : Type) : Type := mkEV { ev_id : nat; ev_data : D }.
Arguments mkEV {D} ev_id ev_data.
Arguments ev_id {D} e.
Arguments ev_data {D} e.

(** The attributes assigned in [__init__] only. *)
Record Config : Type := mkConfig {
  id : Z;
  connected_bus : Z;
  connected_transformer : list Z;
  geo_location : option (Q * Q);
  n_ports : Z;
  charger_type : ChargerType;
  bi_directional : bool;
  timescale : Z;
  min_charge_current : Q;
  max_charge_current : Q;
  min_discharge_current : Q;
  max_discharge_current : Q;
  voltage : Q;
  verbose : bool
}.

(** The object: its configuration, then the status and statistics
    attributes, which the methods assign. *)
Record Charger (D : Type) : Type := mkCharger {
  config : Config;
  current_power_output : Q;
  evs_connected : list (option (EV D));
  n_evs_connected : Z;
  current_step : Z;
  current_charge_price : Q;
  current_discharge_price : Q;
  current_total_amps : Q;
  total_energy_charged : Q;
  total_energy_discharged : Q;
  total_profits : Q;
  total_evs_served : Z;
  total_user_satisfaction : Q
}.
Arguments mkCharger {D}.
Arguments config {D} c.
Arguments current_power_output {D} c.
Arguments evs_connected {D} c.
Arguments n_evs_connected {D} c.
Arguments current_step {D} c.
Arguments current_charge_price {D} c.
Arguments current_discharge_price {D} c.
Arguments current_total_amps {D} c.
Arguments total_energy_charged {D} c.
Arguments total_energy_discharged {D} c.
Arguments total_profits {D} c.
Arguments total_evs_served {D} c.
Arguments total_user_satisfaction {D} c.


(** The methods of the vehicle class that the station calls.  A method
    that changes the vehicle returns the changed vehicle.
    - [ev_step amps voltage type ev]: the call [ev.step(amps, voltage,
      type=...)], or [ev.step(amps)] when the last two are [None]; the
      result carries the pair (actual power, actual current).
    - [ev_is_departing t ev]: whether [ev.is_departing(t)] is not None.
    - [ev_get_user_satisfaction ev] and [ev_get_state t ev]: the values of
      [ev.get_user_satisfaction()] and [ev.get_state(t)]. *)
Class Vehicle (D : Type) : Type := {
  ev_step : Q -> option Q -> option ChargerType -> EV D -> EV D * (Q * Q);
  ev_is_departing : Z -> EV D -> bool;
  ev_get_user_satisfaction : EV D -> Q;
  ev_get_state : Z -> EV D -> list Q
}.

(** The local variables of [step] that outlive one turn of its main
    loop; [None] is a name that is not bound yet. *)
Record locals : Type := mkLocals {
  profit : Q;
  actual_power : option Q;
  actual_amps : option Q
}.

Module Station.
Section Station.
Context {D : Type} `{!Vehicle D}.

(** *** Attribute assignment *)

Definition set_current_power_output (v : Q) (st : Charger D) : Charger D :=
  mkCharger (config st) v (evs_connected st) (n_evs_connected st)
    (current_step st) (current_charge_price st) (current_discharge_price st)
    (current_total_amps st) (total_energy_charged st)
    (total_energy_discharged st) (total_profits st) (total_evs_served st)
    (total_user_satisfaction st).

Definition set_evs_connected (v : list (option (EV D))) (st : Charger D)
  : Charger D :=
  mkCharger (config st) (current_power_output st) v (n_evs_connected st)
    (current_step st) (current_charge_price st) (current_discharge_price st)
    (current_total_amps st) (total_energy_charged st)
    (total_energy_discharged st) (total_profits st) (total_evs_served st)
    (total_user_satisfaction st).

Definition set_n_evs_connected (v : Z) (st : Charger D) : Charger D :=
  mkCharger (config st) (current_power_output st) (evs_connected st) v
    (current_step st) (current_charge_price st) (current_discharge_price st)
    (current_total_amps st) (total_energy_charged st)
    (total_energy_discharged st) (total_profits st) (total_evs_served st)
    (total_user_satisfaction st).

Definition set_current_step (v : Z) (st : Charger D) : Charger D :=
  mkCharger (config st) (current_power_output st) (evs_connected st)
    (n_evs_connected st) v (current_charge_price st)
    (current_discharge_price st) (current_total_amps st)
    (total_energy_charged st) (total_energy_discharged st) (total_profits st)
    (total_evs_served st) (total_user_satisfaction st).

Definition set_current_charge_price (v : Q) (st : Charger D) : Charger D :=
  mkCharger (config st) (current_power_output st) (evs_connected st)
    (n_evs_connected st) (current_step st) v (current_discharge_price st)
    (current_total_amps st) (total_energy_charged st)
    (total_energy_discharged st) (total_profits st) (total_evs_served st)
    (total_user_satisfaction st).

Definition set_current_discharge_price (v : Q) (st : Charger D) : Charger D :=
  mkCharger (config st) (current_power_output st) (evs_connected st)
    (n_evs_connected st) (current_step st) (current_charge_price st) v
    (current_total_amps st) (total_energy_charged st)
    (total_energy_discharged st) (total_profits st) (total_evs_served st)
    (total_user_satisfaction st).

Definition set_current_total_amps (v : Q) (st : Charger D) : Charger D :=
  mkCharger (config st) (current_power_output st) (evs_connected st)
    (n_evs_connected st) (current_step st) (current_charge_price st)
    (current_discharge_price st) v (total_energy_charged st)
    (total_energy_discharged st) (total_profits st) (total_evs_served st)
    (total_user_satisfaction st).

Definition set_total_energy_charged (v : Q) (st : Charger D) : Charger D :=
  mkCharger (config st) (current_power_output st) (evs_connected st)
    (n_evs_connected st) (current_step st) (current_charge_price st)
    (current_discharge_price st) (current_total_amps st) v
    (total_energy_discharged st) (total_profits st) (total_evs_served st)
    (total_user_satisfaction st).

Definition set_total_energy_discharged (v : Q) (st : Charger D) : Charger D :=
  mkCharger (config st) (current_power_output st) (evs_connected st)
    (n_evs_connected st) (current_step st) (current_charge_price st)
    (current_discharge_price st) (current_total_amps st)
    (total_energy_charged st) v (total_profits st) (total_evs_served st)
    (total_user_satisfaction st).

Definition set_total_profits (v : Q) (st : Charger D) : Charger D :=
  mkCharger (config st) (current_power_output st) (evs_connected st)
    (n_evs_connected st) (current_step st) (current_charge_price st)
    (current_discharge_price st) (current_total_amps st)
    (total_energy_charged st) (total_energy_discharged st) v
    (total_evs_served st) (total_user_satisfaction st).

Definition set_total_evs_served (v : Z) (st : Charger D) : Charger D :=
  mkCharger (config st) (current_power_output st) (evs_connected st)
    (n_evs_connected st) (current_step st) (current_charge_price st)
    (current_discharge_price st) (current_total_amps st)
    (total_energy_charged st) (total_energy_discharged st) (total_profits st)
    v (total_user_satisfaction st).

Definition set_total_user_satisfaction (v : Q) (st : Charger D) : Charger D :=
  mkCharger (config st) (current_power_output st) (evs_connected st)
    (n_evs_connected st) (current_step st) (current_charge_price st)
    (current_discharge_price st) (current_total_amps st)
    (total_energy_charged st) (total_energy_discharged st) (total_profits st)
    (total_evs_served st) v.

(** *** __init__ *)

(** [[None] * n_ports] is the empty list when [n_ports] is negative. *)
Definition init (cfg : Config) : Charger D :=
  {| config := cfg;
     current_power_output := 0;
     evs_connected := replicate (Z.to_nat (n_ports cfg)) None;
     n_evs_connected := 0;
     current_step := 0;
     current_charge_price := 0;
     current_discharge_price := 0;
     current_total_amps := 0;
     total_energy_charged := 0;
     total_energy_discharged := 0;
     total_profits := 0;
     total_evs_served := 0;
     total_user_satisfaction := 0 |}.

(** *** step *)

(** Lines 122-125: [for i in range(len(actions))], a port whose slot is
    None gets its action overwritten with 0 in the caller's list and is
    counted.  [idx] holds the indices still to visit; the result is the
    list as the loop leaves it and the counter. *)
Fixpoint zero_empty_ports (slots : list (option (EV D))) (idx : list nat)
    (actions : list Q) (invalid_action_punishment : Z)
  : list Q * outcome Z :=
  match idx with
  | [] => (actions, Ok invalid_action_punishment)
  | i :: idx' =>
      match slots !! i with
      | None => (actions, Raise IndexError)
      | Some None =>
          zero_empty_ports slots idx' (<[i := 0]> actions)
            (invalid_action_punishment + 1)%Z
      | Some (Some _) =>
          zero_empty_ports slots idx' actions invalid_action_punishment
      end
  end.

(** Lines 128-134. *)
Definition normalize (actions : list Q) : list Q :=
  if Qlt_bool 1 (sum actions) then
    map (fun action => action / sum actions) actions
  else if Qlt_bool (sum actions) (-1) then
    map (fun action => - action / sum actions) actions
  else actions.

(** [self.evs_connected[i].step]: the receiver of the call. *)
Definition vehicle_at (i : nat) (st : Charger D) : outcome (EV D) :=
  match evs_connected st !! i with
  | None => Raise IndexError
  | Some None => Raise AttributeError
  | Some (Some ev) => Ok ev
  end.

(** Lines 148-150: the current requested when charging. *)
Definition charge_amps (cfg : Config) (action : Q) : Q :=
  let amps := action * max_charge_current cfg in
  if Qlt_bool amps (min_charge_current cfg) then 0 else amps.

(** Lines 165-167: the current requested when discharging. *)
Definition discharge_amps (cfg : Config) (action : Q) : Q :=
  let amps := action * Qabs (max_charge_current cfg) in
  if Qlt_bool (min_discharge_current cfg) amps
  then min_discharge_current cfg else amps.

(** Lines 152-155 and 169-172: the vehicle steps with the requested
    current, and the pair it returns is bound to [actual_power] and
    [actual_amps]. *)
Definition drive (i : nat) (amps : Q) (st : Charger D) (l : locals)
  : Charger D * outcome locals :=
  match vehicle_at i st with
  | Raise e => (st, Raise e)
  | Ok ev =>
      let '(ev', (power, amps')) :=
        ev_step amps (Some (voltage (config st)))
          (Some (charger_type (config st))) ev in
      (set_evs_connected (<[i := Some ev']> (evs_connected st)) st,
       Ok (mkLocals (profit l) (Some power) (Some amps')))
  end.

(** Lines 156-159: the bookkeeping of a charging port.  It reads the two
    names the vehicle's step has just bound. *)
Definition account_charge (charge_price : Q) (st : Charger D) (l : locals)
  : Charger D * outcome locals :=
  match actual_power l, actual_amps l with
  | Some power, Some amps =>
      let l := mkLocals (profit l + Qabs power * charge_price)
                 (actual_power l) (actual_amps l) in
      let st := set_total_energy_charged
                  (total_energy_charged st + Qabs power) st in
      let st := set_current_power_output
                  (current_power_output st + power) st in
      let st := set_current_total_amps (current_total_amps st + amps) st in
      (st, Ok l)
  | _, _ => (st, Raise UnboundLocalError)
  end.

(** Lines 173-176: the bookkeeping of a discharging port.  It reads
    [actual_power], assigns three times, then reads [actual_amps]. *)
Definition account_discharge (discharge_price : Q) (st : Charger D)
    (l : locals) : Charger D * outcome locals :=
  match actual_power l with
  | None => (st, Raise UnboundLocalError)
  | Some power =>
      let l := mkLocals (profit l + Qabs power * discharge_price)
                 (actual_power l) (actual_amps l) in
      let st := set_total_energy_discharged
                  (total_energy_discharged st + Qabs power) st in
      let st := set_current_power_output
                  (current_power_output st + power) st in
      match actual_amps l with
      | None => (st, Raise UnboundLocalError)
      | Some amps =>
          (set_current_total_amps (current_total_amps st + amps) st, Ok l)
      end
  end.

(** Lines 144-176: the branch on the sign of the rounded action. *)
Definition dispatch (charge_price discharge_price : Q) (i : nat)
    (action : Q) (st : Charger D) (l : locals) : Charger D * outcome locals :=
  if Qeq_bool action 0 then
    match evs_connected st !! i with
    | None => (st, Raise IndexError)
    | Some None => (st, Ok l)
    | Some (Some ev) =>
        let '(ev', _) := ev_step 0 None None ev in
        (set_evs_connected (<[i := Some ev']> (evs_connected st)) st, Ok l)
    end
  else if Qlt_bool 0 action then
    match drive i (charge_amps (config st) action) st l with
    | (st, Ok l) => account_charge charge_price st l
    | r => r
    end
  else if Qlt_bool action 0 then
    let inner :=
      if negb (bi_directional (config st)) then
        (* actual_power, actual_power = 0, 0 *)
        (st, Ok (mkLocals (profit l) (Some 0) (actual_amps l)))
      else drive i (discharge_amps (config st) action) st l in
    match inner with
    | (st, Ok l) => account_discharge discharge_price st l
    | r => r
    end
  else (st, Ok l).

(** Lines 178-185: the over-current check, then the verbose print, which
    reads [actual_power] and [actual_amps]. *)
Definition check_port (i : nat) (st : Charger D) (l : locals)
  : Charger D * outcome locals :=
  if Qlt_bool (max_charge_current (config st))
       (current_total_amps st - tolerance)
  then (st, Raise OverCurrent)
  else if verbose (config st) then
    match evs_connected st !! i with
    | None => (st, Raise IndexError)
    | Some None => (st, Ok l)
    | Some (Some _) =>
        match actual_power l, actual_amps l with
        | Some _, Some _ => (st, Ok l)
        | _, _ => (st, Raise UnboundLocalError)
        end
    end
  else (st, Ok l).

(** Lines 141-185: one turn of the main loop, for port [i]. *)
Definition port_step (charge_price discharge_price : Q) (i : nat)
    (action : Q) (st : Charger D) (l : locals) : Charger D * outcome locals :=
  let action := round5 action in
  if negb (Qle_bool (-1) action && Qle_bool action 1) then
    (st, Raise (AssertionError ActionRange))
  else
    match dispatch charge_price discharge_price i action st l with
    | (st, Ok l) => check_port i st l
    | r => r
    end.

(** Line 140: [for i, action in enumerate(normalized_actions)], from
    index [i] on; a raise ends the loop. *)
Fixpoint port_loop (charge_price discharge_price : Q) (i : nat)
    (normalized_actions : list Q) (st : Charger D) (l : locals)
  : Charger D * outcome locals :=
  match normalized_actions with
  | [] => (st, Ok l)
  | action :: rest =>
      match port_step charge_price discharge_price i action st l with
      | (st, Ok l) => port_loop charge_price discharge_price (S i) rest st l
      | r => r
      end
  end.

(** Lines 190-201: [for i, ev in enumerate(self.evs_connected)], from
    index [i] on; [slots] are the items not visited yet. *)
Fixpoint departure_scan (i : nat) (slots : list (option (EV D)))
    (st : Charger D) (user_satisfaction : list Q) : Charger D * list Q :=
  match slots with
  | [] => (st, user_satisfaction)
  | None :: rest => departure_scan (S i) rest st user_satisfaction
  | Some ev :: rest =>
      if ev_is_departing (current_step st) ev then
        let st := set_evs_connected (<[i := None]> (evs_connected st)) st in
        let st := set_n_evs_connected (n_evs_connected st - 1)%Z st in
        let st := set_total_evs_served (total_evs_served st + 1)%Z st in
        let ev_user_satisfaction := ev_get_user_satisfaction ev in
        let st := set_total_user_satisfaction
                    (total_user_satisfaction st + ev_user_satisfaction) st in
        departure_scan (S i) rest st
          (user_satisfaction ++ [ev_user_satisfaction])
      else departure_scan (S i) rest st user_satisfaction
  end.

(** [step(actions, charge_price, discharge_price)].  The result is the
    station, the caller's list [actions] as the call leaves it, and the
    outcome: the triple (profit, user_satisfaction,
    invalid_action_punishment) or the exception. *)
Definition step (actions : list Q) (charge_price discharge_price : Q)
    (st : Charger D) : Charger D * list Q * outcome (Q * list Q * Z) :=
  let st := set_current_power_output 0 st in
  let st := set_current_total_amps 0 st in
  let st := set_current_charge_price charge_price st in
  let st := set_current_discharge_price discharge_price st in
  if negb (Z.of_nat (length actions) =? n_ports (config st))%Z then
    (st, actions, Raise (AssertionError ActionsLength))
  else
    match zero_empty_ports (evs_connected st) (seq 0 (length actions))
            actions 0%Z with
    | (actions, Raise e) => (st, actions, Raise e)
    | (actions, Ok invalid_action_punishment) =>
        let normalized_actions := normalize actions in
        match port_loop charge_price discharge_price 0 normalized_actions st
                (mkLocals 0 None None) with
        | (st, Raise e) => (st, actions, Raise e)
        | (st, Ok l) =>
            let st := set_total_profits (total_profits st + profit l) st in
            let '(st, user_satisfaction) :=
              departure_scan 0 (evs_connected st) st [] in
            let st := set_current_step (current_step st + 1)%Z st in
            (st, actions,
             Ok (profit l, user_satisfaction, invalid_action_punishment))
        end
    end.

(** *** get_state, get_avg_user_satisfaction *)

(** [np.hstack] of the two prices and, per port, the vehicle's state or
    [np.zeros(2)]. *)
Definition get_state (st : Charger D) : list Q :=
  [current_charge_price st; current_discharge_price st] ++
  concat (map (fun slot : option (EV D) =>
                 match slot with
                 | Some ev => ev_get_state (current_step st) ev
                 | None => [0; 0]
                 end) (evs_connected st)).

Definition get_avg_user_satisfaction (st : Charger D) : Q :=
  if (total_evs_served st =? 0)%Z then 0
  else total_user_satisfaction st / inject_Z (total_evs_served st).

(** *** spawn_ev, reset *)

(** [self.evs_connected.index(None)]: the first position holding None. *)
Fixpoint index_None (slots : list (option (EV D))) : option nat :=
  match slots with
  | [] => None
  | None :: _ => Some 0%nat
  | Some _ :: rest => S <$> index_None rest
  end.

(** [spawn_ev(ev)]: the outcome is the port index returned.  The vehicle
    stored in the slot is the caller's object, with [id] assigned. *)
Definition spawn_ev (ev : EV D) (st : Charger D) : Charger D * outcome nat :=
  if negb (n_evs_connected st <? n_ports (config st))%Z then
    (st, Raise (AssertionError PortAvailable))
  else
    match index_None (evs_connected st) with
    | None => (st, Raise ValueError)
    | Some index =>
        let ev := mkEV index (ev_data ev) in
        let st := set_evs_connected (<[index := Some ev]> (evs_connected st))
                    st in
        let st := set_n_evs_connected (n_evs_connected st + 1)%Z st in
        (st, Ok index)
    end.

Definition reset (st : Charger D) : Charger D :=
  let st := set_current_power_output 0 st in
  let st := set_current_total_amps 0 st in
  let st := set_evs_connected
              (replicate (Z.to_nat (n_ports (config st))) None) st in
  let st := set_n_evs_connected 0 st in
  let st := set_current_step 0 st in
  let st := set_total_energy_charged 0 st in
  let st := set_total_energy_discharged 0 st in
  let st := set_total_profits 0 st in
  let st := set_total_evs_served 0 st in
  set_total_user_satisfaction 0 st.

End Station.
End Station.

(** ** The normalisation in binary64

    Lines 128-134 on Python floats: [sum] adds the items from left to
    right, starting from 0, and every operation rounds to binary64. *)
Module Binary64.

Definition sum (l : list float) : float := fold_left PrimFloat.add l 0%float.

Definition normalize (actions : list float) : list float :=
  if PrimFloat.ltb 1%float (sum actions) then
    map (fun action => (action / sum actions)%float) actions
  else if PrimFloat.ltb (sum actions) (-1)%float then
    map (fun action => (- action / sum actions)%float) actions
  else actions.

End Binary64.

(** ** A vehicle for the scenarios

    The vehicle takes every requested current in full, at
    [amps * voltage / 1000] kW, and keeps the list of the currents it was
    asked for; it departs from its departure step on, fully satisfied. *)
Module Scenario.

Record car : Type := mkCar { requests : list Q; departure : Z }.

Definition car_step (amps : Q) (volts : option Q) (type : option ChargerType)
    (ev : EV car) : EV car * (Q * Q) :=
  let v := match volts with Some v => v | None => 0 end in
  (mkEV (ev_id ev) (mkCar (requests (ev_data ev) ++ [amps])
                      (departure (ev_data ev))),
   (amps * v / 1000, amps)).

#[export] Instance car_vehicle : Vehicle car := {|
  ev_step := car_step;
  ev_is_departing := fun t ev => (departure (ev_data ev) <=? t)%Z;
  ev_get_user_satisfaction := fun _ => 1;
  ev_get_state := fun t ev => [inject_Z (departure (ev_data ev) - t); 1]
|}.

(** A vehicle that has not stepped yet and leaves at step [d]. *)
Definition new_car (d : Z) : EV car := mkEV 0 (mkCar [] d).

(** The default arguments of [__init__], for a station with [n] ports. *)
Definition default_config (n : Z) (bidir : bool) : Config :=
  {| id := 0; connected_bus := 0; connected_transformer := [0%Z];
     geo_location := None; n_ports := n; charger_type := AC;
     bi_directional := bidir; timescale := 5;
     min_charge_current := 8; max_charge_current := 32;
     min_discharge_current := -8; max_discharge_current := -32;
     voltage := 230; verbose := false |}.

(** A station of [n] ports after [k] vehicles were spawned. *)
Fixpoint station (cfg : Config) (k : nat) : Charger car :=
  match k with
  | O => Station.init cfg
  | S k => fst (Station.spawn_ev (new_car 100) (station cfg k))
  end.

(** The same station with the prints switched on. *)
Definition verbose_config (n : Z) : Config :=
  {| id := 0; connected_bus := 0; connected_transformer := [0%Z];
     geo_location := None; n_ports := n; charger_type := AC;
     bi_directional := true; timescale := 5;
     min_charge_current := 8; max_charge_current := 32;
     min_discharge_current := -8; max_discharge_current := -32;
     voltage := 230; verbose := true |}.

(** A station of two ports whose first vehicle leaves at step 0. *)
Definition leaving_station : Charger car :=
  fst (Station.spawn_ev (new_car 100)
         (fst (Station.spawn_ev (new_car 0)
                 (Station.init (default_config 2 true))))).


End Scenario.

(** ** Notions the statements use *)

Section Notions.
Context {D : Type}.

(** The number of empty ports, and of occupied ones. *)
Fixpoint count_empty (slots : list (option (EV D))) : Z :=
  match slots with
  | [] => 0
  | None :: rest => 1 + count_empty rest
  | Some _ :: rest => count_empty rest
  end.

Fixpoint count_occupied (slots : list (option (EV D))) : Z :=
  match slots with
  | [] => 0
  | None :: rest => count_occupied rest
  | Some _ :: rest => 1 + count_occupied rest
  end.

(** What one slot adds to the number of occupied ports. *)
Definition occupied_bit (slot : option (EV D)) : Z :=
  match slot with Some _ => 1 | None => 0 end.

(** The actions with 0 at every empty port. *)
Definition zeroed (slots : list (option (EV D))) (actions : list Q) : list Q :=
  zip_with (fun (slot : option (EV D)) action =>
              match slot with None => 0 | Some _ => action end)
    slots actions.

(** The counter [n_evs_connected] agrees with the port array. *)
Definition occupancy_inv (st : Charger D) : Prop :=
  n_evs_connected st = count_occupied (evs_connected st).

(** The port array has [n_ports] slots. *)
Definition ports_inv (st : Charger D) : Prop :=
  Z.of_nat (length (evs_connected st)) = n_ports (config st).

(** [st'] has the configuration of [st], its counter, as many occupied
    ports and as many slots. *)
Definition keeps_occupancy (st st' : Charger D) : Prop :=
  config st' = config st /\
  n_evs_connected st' = n_evs_connected st /\
  count_occupied (evs_connected st') = count_occupied (evs_connected st) /\
  length (evs_connected st') = length (evs_connected st).


End Notions.


(** ** Notions for the loops of [step] *)

Section LoopNotions.
Context {D : Type} `{!Vehicle D}.

(** Which ports hold a vehicle. *)
Definition occupancy (slots : list (option (EV D))) : list bool :=
  map (fun slot : option (EV D) =>
         match slot with Some _ => true | None => false end) slots.

(** What the main loop of [step] leaves alone between [st] and [st']:
    the configuration, which ports are occupied, the counters, the step,
    the prices, the cumulated profit and the departure statistics; the
    two energy counters do not go down. *)
Definition loop_frame (st st' : Charger D) : Prop :=
  config st' = config st /\
  occupancy (evs_connected st') = occupancy (evs_connected st) /\
  n_evs_connected st' = n_evs_connected st /\
  current_step st' = current_step st /\
  current_charge_price st' = current_charge_price st /\
  current_discharge_price st' = current_discharge_price st /\
  total_profits st' = total_profits st /\
  total_evs_served st' = total_evs_served st /\
  total_user_satisfaction st' = total_user_satisfaction st /\
  total_energy_charged st <= total_energy_charged st' /\
  total_energy_discharged st <= total_energy_discharged st'.

(** The port array once the vehicles departing at step [t] are gone. *)
Definition after_departures (t : Z) (slots : list (option (EV D)))
  : list (option (EV D)) :=
  map (fun slot : option (EV D) =>
         match slot with
         | Some ev => if ev_is_departing t ev then None else Some ev
         | None => None
         end) slots.

(** The satisfaction of the vehicles departing at step [t], in port
    order. *)
Fixpoint departing_scores (t : Z) (slots : list (option (EV D))) : list Q :=
  match slots with
  | [] => []
  | None :: rest => departing_scores t rest
  | Some ev :: rest =>
      if ev_is_departing t ev
      then ev_get_user_satisfaction ev :: departing_scores t rest
      else departing_scores t rest
  end.

(** The served vehicles' satisfaction adds up to at most one each. *)
Definition satisfaction_inv (st : Charger D) : Prop :=
  (0 <= total_evs_served st)%Z /\
  0 <= total_user_satisfaction st <= inject_Z (total_evs_served st).

(** Vehicles arriving one after the other: the outcomes of the calls of
    [spawn_ev], in order. *)
Fixpoint spawn_all (evs : list (EV D)) (st : Charger D)
  : Charger D * list (outcome nat) :=
  match evs with
  | [] => (st, [])
  | ev :: rest =>
      let '(st1, r) := Station.spawn_ev ev st in
      let '(st2, rs) := spawn_all rest st1 in
      (st2, r :: rs)
  end.

(** The station after lines 114-117 of [step]. *)
Definition begin_step (charge_price discharge_price : Q) (st : Charger D)
  : Charger D :=
  Station.set_current_discharge_price discharge_price
    (Station.set_current_charge_price charge_price
       (Station.set_current_total_amps 0
          (Station.set_current_power_output 0 st))).


End LoopNotions.


(** * Properties *)

Import Station.

(** ** Comparisons and rounding *)

Lemma Qlt_bool_true (x y : Q) : Qlt_bool x y = true <-> x < y.
Proof.
  unfold Qlt_bool. rewrite negb_true_iff.
  split; intros Hxy.
  - apply Qnot_le_lt. intros Hle. apply Qle_bool_iff in Hle. congruence.
  - destruct (Qle_bool y x) eqn:E; [|reflexivity].
    apply Qle_bool_iff in E. lra.
Qed.

Lemma Qlt_bool_false (x y : Q) : Qlt_bool x y = false <-> y <= x.
Proof.
  unfold Qlt_bool. rewrite negb_false_iff. apply Qle_bool_iff.
Qed.

Lemma in_range_true (x : Q) :
  negb (Qle_bool (-1) x && Qle_bool x 1) = false <-> -1 <= x <= 1.
Proof.
  rewrite negb_false_iff, andb_true_iff, !Qle_bool_iff. reflexivity.
Qed.

Lemma round_half_even_lower (x : Q) (n : Z) :
  inject_Z n <= x -> (n <= round_half_even x)%Z.
Proof.
  intros Hn. apply Qfloor_resp_le in Hn. rewrite Qfloor_Z in Hn.
  unfold round_half_even.
  destruct (Qcompare _ _); [destruct (Z.even _)| |]; lia.
Qed.

Lemma round_half_even_upper (x : Q) (n : Z) :
  x <= inject_Z n -> (round_half_even x <= n)%Z.
Proof.
  intros Hn. pose proof (Qfloor_resp_le _ _ Hn) as Hf.
  rewrite Qfloor_Z in Hf.
  destruct (Z.eq_dec (Qfloor x) n) as [Heq|Hne].
  - assert (Hx : x - inject_Z (Qfloor x) < 1 # 2).
    { pose proof (Qfloor_le x) as Hlo. rewrite Heq in Hlo |- *. lra. }
    unfold round_half_even. rewrite (proj1 (Qlt_alt _ _) Hx). lia.
  - unfold round_half_even.
    destruct (Qcompare _ _); [destruct (Z.even _)| |]; lia.
Qed.

Lemma round5_range (x : Q) : -1 <= x <= 1 -> -1 <= round5 x <= 1.
Proof.
  intros [Hlo Hhi]. unfold round5.
  assert (H1 : (-100000 <= round_half_even (x * 100000))%Z).
  { apply round_half_even_lower. change (inject_Z (-100000)) with (-100000).
    lra. }
  assert (H2 : (round_half_even (x * 100000) <= 100000)%Z).
  { apply round_half_even_upper. change (inject_Z 100000) with 100000.
    lra. }
  set (r := round_half_even (x * 100000)) in *.
  assert (H3 : -100000 <= inject_Z r <= 100000).
  { split.
    - change (-100000) with (inject_Z (-100000)). now rewrite <- Zle_Qle.
    - change 100000 with (inject_Z 100000). now rewrite <- Zle_Qle. }
  split.
  - apply Qle_shift_div_l; lra.
  - apply Qle_shift_div_r; lra.
Qed.

(** ** Sums *)

Lemma fold_left_Qplus (l : list Q) : forall a,
  fold_left Qplus l a == a + sum l.
Proof.
  unfold sum. induction l as [|x l IH]; intros a; cbn [fold_left].
  - lra.
  - rewrite IH, (IH (0 + x)). lra.
Qed.

Lemma sum_cons (x : Q) (l : list Q) : sum (x :: l) == x + sum l.
Proof. unfold sum at 1. cbn [fold_left]. rewrite fold_left_Qplus. lra. Qed.

Lemma sum_nonneg (l : list Q) :
  Forall (fun x => 0 <= x) l -> 0 <= sum l /\ Forall (fun x => x <= sum l) l.
Proof.
  induction 1 as [|x l Hx Hl [IH1 IH2]].
  - split; [unfold sum; cbn [fold_left]; lra|constructor].
  - pose proof (sum_cons x l) as Hs.
    split; [lra|]. constructor; [lra|].
    eapply Forall_impl; [exact IH2|].
    intros y Hy. cbv beta in Hy |- *. lra.
Qed.

Lemma sum_nonpos (l : list Q) :
  Forall (fun x => x <= 0) l -> sum l <= 0 /\ Forall (fun x => sum l <= x) l.
Proof.
  induction 1 as [|x l Hx Hl [IH1 IH2]].
  - split; [unfold sum; cbn [fold_left]; lra|constructor].
  - pose proof (sum_cons x l) as Hs.
    split; [lra|]. constructor; [lra|].
    eapply Forall_impl; [exact IH2|].
    intros y Hy. cbv beta in Hy |- *. lra.
Qed.

(** Dividing by a sum above 1, or by the opposite of a sum below -1. *)
Lemma div_in_range (a s : Q) :
  1 < s -> - s <= a <= s -> -1 <= a / s <= 1.
Proof.
  intros Hs [Hlo Hhi]. split.
  - apply Qle_shift_div_l; lra.
  - apply Qle_shift_div_r; lra.
Qed.

Lemma neg_div_in_range (a s : Q) :
  s < -1 -> s <= a <= - s -> -1 <= - a / s <= 1.
Proof.
  intros Hs [Hlo Hhi].
  assert (Heq : - a / s == a / - s) by (field; lra).
  rewrite Heq. apply div_in_range; lra.
Qed.


Section StationFacts.
Context {D : Type} `{!Vehicle D}.
Implicit Types (st : Charger D) (l : locals) (actions : list Q).
Implicit Types (slots : list (option (EV D))).

(** ** The over-current check *)

Lemma check_port_over i st l :
  max_charge_current (config st) < current_total_amps st - tolerance ->
  check_port i st l = (st, Raise OverCurrent).
Proof.
  intros Hover. unfold check_port.
  now rewrite (proj2 (Qlt_bool_true _ _) Hover).
Qed.

Lemma check_port_ok i st l st' l' :
  check_port i st l = (st', Ok l') ->
  st' = st /\ l' = l /\
  current_total_amps st - tolerance <= max_charge_current (config st).
Proof.
  unfold check_port.
  destruct (Qlt_bool _ _) eqn:Hlt; [discriminate|].
  apply Qlt_bool_false in Hlt.
  destruct (verbose _); [|intros [= <- <-]; auto].
  destruct (evs_connected st !! i) as [[ev|]|]; try discriminate.
  - destruct (actual_power l), (actual_amps l); try discriminate.
    intros [= <- <-]; auto.
  - intros [= <- <-]; auto.
Qed.

Lemma port_step_ok_bound cp dp i action st l st' l' :
  port_step cp dp i action st l = (st', Ok l') ->
  current_total_amps st' - tolerance <= max_charge_current (config st').
Proof.
  unfold port_step.
  destruct (negb _); [discriminate|].
  destruct (dispatch _ _ _ _ _ _) as [st1 [l1|e]]; [|discriminate].
  intros Hc. apply check_port_ok in Hc as (-> & _ & Hb). exact Hb.
Qed.

Lemma port_loop_ok_bound cp dp acts : forall i st l st' l',
  acts <> [] ->
  port_loop cp dp i acts st l = (st', Ok l') ->
  current_total_amps st' - tolerance <= max_charge_current (config st').
Proof.
  induction acts as [|a rest IH]; intros i st l st' l' Hne; [congruence|].
  cbn [port_loop].
  destruct (port_step cp dp i a st l) as [st1 [l1|e]] eqn:Hstep;
    [|discriminate].
  destruct rest as [|b rest'].
  - cbn [port_loop]. intros [= <- <-].
    eapply port_step_ok_bound, Hstep.
  - apply IH. discriminate.
Qed.

(** ** What the departure scan leaves alone *)

Lemma departure_scan_frame slots : forall i st sat st' sat',
  departure_scan i slots st sat = (st', sat') ->
  config st' = config st /\
  current_total_amps st' = current_total_amps st /\
  current_power_output st' = current_power_output st /\
  current_step st' = current_step st /\
  current_charge_price st' = current_charge_price st /\
  current_discharge_price st' = current_discharge_price st /\
  total_profits st' = total_profits st /\
  length (evs_connected st') = length (evs_connected st).
Proof.
  induction slots as [|[ev|] rest IH]; intros i st sat st' sat';
    cbn [departure_scan].
  - intros [= <- <-]. repeat split.
  - destruct (ev_is_departing _ _).
    + intros Hscan. apply IH in Hscan. cbn in Hscan.
      rewrite length_insert in Hscan. exact Hscan.
    + apply IH.
  - apply IH.
Qed.

(** ** The zeroing and normalisation keep the length *)

Lemma zero_empty_ports_length slots idx : forall actions n actions' r,
  zero_empty_ports slots idx actions n = (actions', r) ->
  length actions' = length actions.
Proof.
  induction idx as [|i idx IH]; intros actions n actions' r;
    cbn [zero_empty_ports].
  - now intros [= <- _].
  - destruct (slots !! i) as [[ev|]|].
    + apply IH.
    + intros Hz. apply IH in Hz. now rewrite length_insert in Hz.
    + now intros [= <- _].
Qed.

Lemma normalize_length actions : length (normalize actions) = length actions.
Proof.
  unfold normalize.
  destruct (Qlt_bool 1 _); [apply length_map|].
  destruct (Qlt_bool _ _); [apply length_map|reflexivity].
Qed.

(** ** C1: the aggregate current after a step *)

(** The attributes [step] assigns before it looks at the actions. *)
Lemma step_unfold actions cp dp st :
  let st0 := set_current_discharge_price dp
               (set_current_charge_price cp
                  (set_current_total_amps 0
                     (set_current_power_output 0 st))) in
  step actions cp dp st =
  if negb (Z.of_nat (length actions) =? n_ports (config st))%Z then
    (st0, actions, Raise (AssertionError ActionsLength))
  else
    match zero_empty_ports (evs_connected st) (seq 0 (length actions))
            actions 0%Z with
    | (zeroed, Raise e) => (st0, zeroed, Raise e)
    | (zeroed, Ok n) =>
        match port_loop cp dp 0 (normalize zeroed) st0 (mkLocals 0 None None)
        with
        | (st1, Raise e) => (st1, zeroed, Raise e)
        | (st1, Ok l) =>
            let st2 := set_total_profits (total_profits st1 + profit l) st1 in
            let '(st3, sat) := departure_scan 0 (evs_connected st2) st2 [] in
            (set_current_step (current_step st3 + 1)%Z st3, zeroed,
             Ok (profit l, sat, n))
        end
    end.
Proof. reflexivity. Qed.

(** C1.  In [step], a port after whose branch the aggregate current is
    above [max_charge_current] by more than the tolerance 0.0001 makes the
    turn raise; the raise ends the loop at that port; and when [step]
    returns on a station with at least one port, [current_total_amps]
    minus the tolerance is at most [max_charge_current]. *)
Theorem step_over_current_guard :
  (forall cp dp i action st l st1 l1,
     -1 <= round5 action <= 1 ->
     dispatch cp dp i (round5 action) st l = (st1, Ok l1) ->
     max_charge_current (config st1) < current_total_amps st1 - tolerance ->
     port_step cp dp i action st l = (st1, Raise OverCurrent)) /\
  (forall cp dp i action rest st l st1 e,
     port_step cp dp i action st l = (st1, Raise e) ->
     port_loop cp dp i (action :: rest) st l = (st1, Raise e)) /\
  (forall actions cp dp st st' actions' r,
     (1 <= n_ports (config st))%Z ->
     step actions cp dp st = (st', actions', Ok r) ->
     current_total_amps st' - tolerance <= max_charge_current (config st')).
Proof.
  split; [|split].
  - intros cp dp i action st l st1 l1 Hr Hd Hover. unfold port_step.
    rewrite (proj2 (in_range_true _) Hr), Hd. now apply check_port_over.
  - intros cp dp i action rest st l st1 e Hstep. cbn [port_loop].
    now rewrite Hstep.
  - intros actions cp dp st st' actions' r Hn. rewrite step_unfold. cbv zeta.
    destruct (negb _) eqn:Hlen; [discriminate|].
    apply negb_false_iff, Z.eqb_eq in Hlen.
    destruct (zero_empty_ports _ _ _ _) as [zeroed [n|e]] eqn:Hz;
      [|discriminate].
    destruct (port_loop _ _ _ _ _ _) as [st1 [l|e]] eqn:Hloop;
      [|discriminate].
    destruct (departure_scan _ _ _ _) as [st3 sat] eqn:Hscan.
    intros [= <- _ _]. cbn.
    apply departure_scan_frame in Hscan as (Hcfg & Hamps & _).
    rewrite Hcfg, Hamps. cbn.
    eapply port_loop_ok_bound; [|exact Hloop].
    intros Hnil. apply (f_equal length) in Hnil.
    rewrite normalize_length in Hnil.
    apply zero_empty_ports_length in Hz. rewrite Hz in Hnil.
    cbn in Hnil. lia.
Qed.


(** ** C2: a discharging action on a station that is not bidirectional *)

(** C2.  On a station with one port, occupied, and [bi_directional] false,
    [step] with the single action -0.5 does not return: the branch binds
    [actual_power] twice and [actual_amps] never, so line 176 reads a
    name that is not bound and the call raises. *)
Theorem step_discharge_one_way_raises (st : Charger D) (ev : EV D)
    (cp dp : Q) :
  bi_directional (config st) = false ->
  n_ports (config st) = 1%Z ->
  evs_connected st = [Some ev] ->
  snd (step [- (1 # 2)] cp dp st) = Raise UnboundLocalError.
Proof.
  destruct st as [cfg po slots n t p1 p2 amps ec ed tp served sat].
  destruct cfg. cbn. intros -> -> ->. vm_compute. reflexivity.
Qed.

(** ** The zeroing of the actions of empty ports *)

Lemma zero_empty_ports_from slots : forall m k actions n,
  (k + m)%nat = length actions ->
  length slots = length actions ->
  zero_empty_ports slots (seq k m) actions n =
  (take k actions ++ zeroed (drop k slots) (drop k actions),
   Ok (n + count_empty (drop k slots))%Z).
Proof.
  induction m as [|m IH]; intros k actions n Hk Hlen.
  - cbn [seq zero_empty_ports].
    rewrite !drop_ge by lia. rewrite take_ge by lia.
    cbn. now rewrite app_nil_r, Z.add_0_r.
  - cbn [seq zero_empty_ports].
    destruct (lookup_lt_is_Some_2 slots k) as [s Hs]; [lia|].
    destruct (lookup_lt_is_Some_2 actions k) as [a Ha]; [lia|].
    rewrite Hs, (drop_S _ _ _ Hs), (drop_S _ _ _ Ha).
    destruct s as [ev|].
    + rewrite IH by lia.
      rewrite (take_S_r _ _ _ Ha), <- app_assoc. reflexivity.
    + rewrite IH by (rewrite ?length_insert; lia).
      assert (Hk0 : <[k:=0]> actions !! k = Some 0).
      { apply list_lookup_insert_eq. lia. }
      rewrite (take_S_r _ _ _ Hk0), take_insert_ge by lia.
      rewrite drop_insert_lt by lia.
      rewrite <- app_assoc. cbn. f_equal. f_equal. lia.
Qed.

Lemma zero_empty_ports_spec slots actions :
  length slots = length actions ->
  zero_empty_ports slots (seq 0 (length actions)) actions 0 =
  (zeroed slots actions, Ok (count_empty slots)).
Proof.
  intros Hlen. rewrite zero_empty_ports_from by lia.
  now rewrite !drop_0, take_0.
Qed.

Lemma zeroed_lookup slots actions i a :
  actions !! i = Some a ->
  zeroed slots actions !! i =
  match slots !! i with
  | Some None => Some 0
  | Some (Some _) => Some a
  | None => None
  end.
Proof.
  intros Ha. unfold zeroed. rewrite lookup_zip_with, Ha.
  destruct (slots !! i) as [[ev|]|]; reflexivity.
Qed.


Lemma step_actions_left st actions cp dp :
  ports_inv st ->
  Z.of_nat (length actions) = n_ports (config st) ->
  snd (fst (step actions cp dp st)) = zeroed (evs_connected st) actions.
Proof.
  intros Hports Hlen. rewrite step_unfold. cbv zeta.
  rewrite (proj2 (Z.eqb_eq _ _) Hlen). cbn [negb].
  rewrite zero_empty_ports_spec by (unfold ports_inv in Hports; lia).
  destruct (port_loop _ _ _ _ _ _) as [st1 [l|e]]; [|reflexivity].
  destruct (departure_scan _ _ _ _) as [st3 sat]. reflexivity.
Qed.

(** ** C3: normalisation *)

(** [step] on a station with [n_ports] slots and for [n_ports] actions:
    the main loop runs on the normalised zeroed actions. *)
Lemma step_on_zeroed st actions cp dp :
  ports_inv st ->
  Z.of_nat (length actions) = n_ports (config st) ->
  step actions cp dp st =
  match port_loop cp dp 0 (normalize (zeroed (evs_connected st) actions))
          (begin_step cp dp st) (mkLocals 0 None None) with
  | (st1, Raise e) => (st1, zeroed (evs_connected st) actions, Raise e)
  | (st1, Ok l) =>
      let st2 := set_total_profits (total_profits st1 + profit l) st1 in
      let '(st3, sat) := departure_scan 0 (evs_connected st2) st2 [] in
      (set_current_step (current_step st3 + 1)%Z st3,
       zeroed (evs_connected st) actions,
       Ok (profit l, sat, count_empty (evs_connected st)))
  end.
Proof.
  intros Hports Hlen. rewrite step_unfold. cbv zeta.
  rewrite (proj2 (Z.eqb_eq _ _) Hlen). cbn [negb].
  rewrite zero_empty_ports_spec by (unfold ports_inv in Hports; lia).
  reflexivity.
Qed.


(** ** C6: actions at empty ports *)

(** C6.  On a station whose port array has [n_ports] slots and for
    [n_ports] actions: the first loop of [step] writes 0 at every empty
    port, whatever the action given for it, and counts the empty ports;
    the caller's list holds these zeros when the call ends; [step] goes
    on to normalise and dispatch the list with the zeros; and when it
    returns, the third component of its result is the number of ports
    that were empty at the call. *)
Theorem step_invalid_actions st actions cp dp :
  ports_inv st ->
  Z.of_nat (length actions) = n_ports (config st) ->
  let slots := evs_connected st in
  let zs := zeroed slots actions in
  zero_empty_ports slots (seq 0 (length actions)) actions 0 =
    (zs, Ok (count_empty slots)) /\
  (forall i, slots !! i = Some None -> zs !! i = Some 0) /\
  snd (fst (step actions cp dp st)) = zs /\
  (forall i, slots !! i = Some None ->
             snd (fst (step actions cp dp st)) !! i = Some 0) /\
  step actions cp dp st =
    match port_loop cp dp 0 (normalize zs) (begin_step cp dp st)
            (mkLocals 0 None None) with
    | (st1, Raise e) => (st1, zs, Raise e)
    | (st1, Ok l) =>
        let st2 := set_total_profits (total_profits st1 + profit l) st1 in
        let '(st3, sat) := departure_scan 0 (evs_connected st2) st2 [] in
        (set_current_step (current_step st3 + 1)%Z st3, zs,
         Ok (profit l, sat, count_empty slots))
    end /\
  (forall st' actions' profit sat n,
     step actions cp dp st = (st', actions', Ok (profit, sat, n)) ->
     n = count_empty slots).
Proof.
  intros Hports Hlen slots zs.
  assert (Hlen' : length (evs_connected st) = length actions)
    by (unfold ports_inv in Hports; lia).
  assert (Hzero : forall i, slots !! i = Some None -> zs !! i = Some 0).
  { intros i Hi.
    destruct (lookup_lt_is_Some_2 actions i) as [a Ha].
    { rewrite <- Hlen'. apply lookup_lt_is_Some_1. eauto. }
    subst zs slots. now rewrite (zeroed_lookup _ _ _ _ Ha), Hi. }
  assert (Hleft : snd (fst (step actions cp dp st)) = zs)
    by (now apply step_actions_left).
  split; [now apply zero_empty_ports_spec|].
  split; [exact Hzero|].
  split; [exact Hleft|].
  split; [intros i Hi; rewrite Hleft; now apply Hzero|].
  split; [exact (step_on_zeroed st actions cp dp Hports Hlen)|].
  intros st' actions' profit sat n.
  rewrite (step_on_zeroed st actions cp dp Hports Hlen).
  destruct (port_loop _ _ _ _ _ _) as [st1 [l|e]]; [|discriminate].
  cbv zeta. destruct (departure_scan _ _ _ _) as [st3 sat3].
  now intros [= _ _ _ _ <-].
Qed.

(** ** C10: the caller's list of actions *)

(** C10.  [step] writes into the list it is given: for [n_ports] actions
    on a station whose port array has [n_ports] slots, the caller's list
    holds, when the call ends (with a result or with an exception), 0 at
    every port that was empty at the call and the action given at every
    other port. *)
Theorem step_mutates_actions st actions cp dp :
  ports_inv st ->
  Z.of_nat (length actions) = n_ports (config st) ->
  let actions' := snd (fst (step actions cp dp st)) in
  actions' = zeroed (evs_connected st) actions /\
  length actions' = length actions /\
  (forall i a, actions !! i = Some a ->
     (evs_connected st !! i = Some None -> actions' !! i = Some 0) /\
     (forall ev, evs_connected st !! i = Some (Some ev) ->
                 actions' !! i = Some a)).
Proof.
  intros Hports Hlen actions'. subst actions'.
  rewrite step_actions_left by assumption.
  split; [reflexivity|split].
  - unfold zeroed, ports_inv in *. rewrite length_zip_with. lia.
  - intros i a Ha. rewrite (zeroed_lookup _ _ _ _ Ha).
    split; [intros ->|intros ev ->]; reflexivity.
Qed.


(** ** Counting the occupied ports *)

Lemma count_occupied_insert slots : forall i old new,
  slots !! i = Some old ->
  count_occupied (<[i := new]> slots) =
  (count_occupied slots - occupied_bit old + occupied_bit new)%Z.
Proof.
  induction slots as [|s rest IH]; intros [|i] old new; try discriminate.
  - intros [= ->]. cbn. destruct old, new; cbn; lia.
  - change (<[S i:=new]> (s :: rest)) with (s :: <[i:=new]> rest).
    change ((s :: rest) !! S i) with (rest !! i). intros Hi.
    cbn [count_occupied]. rewrite (IH _ _ new Hi). destruct s; lia.
Qed.

Lemma count_occupied_replicate n :
  count_occupied (replicate n (@None (EV D))) = 0%Z.
Proof. induction n as [|n IH]; cbn; [reflexivity|exact IH]. Qed.

Lemma count_occupied_bounds slots :
  (0 <= count_occupied slots <= Z.of_nat (length slots))%Z.
Proof. induction slots as [|[ev|] rest IH]; cbn [count_occupied length]; lia. Qed.

Lemma index_None_Some slots : forall i,
  index_None slots = Some i ->
  slots !! i = Some None /\
  forall j, (j < i)%nat -> exists ev, slots !! j = Some (Some ev).
Proof.
  induction slots as [|[ev|] rest IH]; intros i; cbn [index_None].
  - discriminate.
  - destruct (index_None rest) as [k|]; [|discriminate].
    intros [= <-]. destruct (IH k eq_refl) as [Hk Hlow].
    split; [exact Hk|].
    intros [|j] Hj; [now exists ev|]. apply Hlow. lia.
  - intros [= <-]. split; [reflexivity|]. intros j Hj. lia.
Qed.

Lemma index_None_None slots :
  index_None slots = None -> count_occupied slots = Z.of_nat (length slots).
Proof.
  induction slots as [|[ev|] rest IH]; cbn [index_None count_occupied length].
  - reflexivity.
  - destruct (index_None rest); [discriminate|]. intros _.
    rewrite IH by reflexivity. lia.
  - discriminate.
Qed.


(** ** The main loop keeps the occupancy *)

Lemma keeps_occupancy_refl st : keeps_occupancy st st.
Proof. repeat split. Qed.

Lemma keeps_occupancy_trans st1 st2 st3 :
  keeps_occupancy st1 st2 -> keeps_occupancy st2 st3 ->
  keeps_occupancy st1 st3.
Proof.
  intros (H1 & H2 & H3 & H4) (K1 & K2 & K3 & K4).
  repeat split; congruence.
Qed.

Lemma keeps_occupancy_step_vehicle i ev ev' st :
  evs_connected st !! i = Some (Some ev) ->
  keeps_occupancy st
    (set_evs_connected (<[i := Some ev']> (evs_connected st)) st).
Proof.
  intros Hi. repeat split; cbn.
  - rewrite (count_occupied_insert _ _ _ (Some ev') Hi). cbn. lia.
  - apply length_insert.
Qed.

Lemma drive_keeps i amps st l :
  keeps_occupancy st (fst (drive i amps st l)).
Proof.
  unfold drive, vehicle_at.
  destruct (evs_connected st !! i) as [[ev|]|] eqn:Hi;
    try apply keeps_occupancy_refl.
  destruct (ev_step _ _ _ ev) as [ev' [power amps']]. cbn [fst].
  now apply keeps_occupancy_step_vehicle with ev.
Qed.

Lemma account_charge_keeps cp st l :
  keeps_occupancy st (fst (account_charge cp st l)).
Proof.
  unfold account_charge.
  destruct (actual_power l), (actual_amps l); repeat split.
Qed.

Lemma account_discharge_keeps dp st l :
  keeps_occupancy st (fst (account_discharge dp st l)).
Proof.
  unfold account_discharge.
  destruct (actual_power l); [|repeat split]. cbn.
  destruct (actual_amps l); repeat split.
Qed.

Lemma dispatch_keeps cp dp i action st l :
  keeps_occupancy st (fst (dispatch cp dp i action st l)).
Proof.
  unfold dispatch.
  destruct (Qeq_bool action 0).
  { destruct (evs_connected st !! i) as [[ev|]|] eqn:Hi;
      try apply keeps_occupancy_refl.
    destruct (ev_step _ _ _ ev) as [ev' r]. cbn [fst].
    now apply keeps_occupancy_step_vehicle with ev. }
  destruct (Qlt_bool 0 action).
  { pose proof (drive_keeps i (charge_amps (config st) action) st l) as Hd.
    destruct (drive _ _ _ _) as [st1 [l1|e]]; cbn [fst] in *; [|exact Hd].
    eapply keeps_occupancy_trans; [exact Hd|apply account_charge_keeps]. }
  destruct (Qlt_bool action 0); [|apply keeps_occupancy_refl].
  cbv zeta. destruct (negb _).
  { apply account_discharge_keeps. }
  pose proof (drive_keeps i (discharge_amps (config st) action) st l) as Hd.
  destruct (drive _ _ _ _) as [st1 [l1|e]]; cbn [fst] in *; [|exact Hd].
  eapply keeps_occupancy_trans; [exact Hd|apply account_discharge_keeps].
Qed.

Lemma check_port_state i st l : fst (check_port i st l) = st.
Proof.
  unfold check_port. destruct (Qlt_bool _ _); [reflexivity|].
  destruct (verbose _); [|reflexivity].
  destruct (evs_connected st !! i) as [[ev|]|]; try reflexivity.
  destruct (actual_power l), (actual_amps l); reflexivity.
Qed.

Lemma port_step_keeps cp dp i action st l :
  keeps_occupancy st (fst (port_step cp dp i action st l)).
Proof.
  unfold port_step. destruct (negb _); [apply keeps_occupancy_refl|].
  pose proof (dispatch_keeps cp dp i (round5 action) st l) as Hd.
  destruct (dispatch _ _ _ _ _ _) as [st1 [l1|e]]; cbn [fst] in *;
    [|exact Hd].
  now rewrite check_port_state.
Qed.

Lemma port_loop_keeps cp dp acts : forall i st l,
  keeps_occupancy st (fst (port_loop cp dp i acts st l)).
Proof.
  induction acts as [|a rest IH]; intros i st l; cbn [port_loop].
  - apply keeps_occupancy_refl.
  - pose proof (port_step_keeps cp dp i a st l) as Hs.
    destruct (port_step _ _ _ _ _ _) as [st1 [l1|e]]; cbn [fst] in *;
      [|exact Hs].
    eapply keeps_occupancy_trans; [exact Hs|apply IH].
Qed.


(** ** The departure scan, [spawn_ev] and [reset] *)

Lemma drop_cons_inv {A : Type} (xs : list A) i x rest :
  drop i xs = x :: rest -> xs !! i = Some x /\ drop (S i) xs = rest.
Proof.
  intros Hd. split.
  - rewrite <- (Nat.add_0_r i), <- lookup_drop, Hd. reflexivity.
  - replace (S i) with (i + 1)%nat by lia.
    rewrite <- drop_drop, Hd. reflexivity.
Qed.

Lemma departure_scan_inv slots : forall i st sat,
  drop i (evs_connected st) = slots ->
  occupancy_inv st ->
  occupancy_inv (fst (departure_scan i slots st sat)).
Proof.
  induction slots as [|[ev|] rest IH]; intros i st sat Hdrop Hinv;
    cbn [departure_scan].
  - exact Hinv.
  - apply drop_cons_inv in Hdrop as [Hi Hrest].
    destruct (ev_is_departing _ _).
    + apply IH.
      * cbn. rewrite drop_insert_lt by lia. exact Hrest.
      * unfold occupancy_inv in *. cbn.
        rewrite (count_occupied_insert _ _ _ None Hi), Hinv. cbn. lia.
    + now apply IH.
  - apply drop_cons_inv in Hdrop as [Hi Hrest]. now apply IH.
Qed.

Lemma keeps_occupancy_inv st st' :
  keeps_occupancy st st' -> occupancy_inv st -> occupancy_inv st'.
Proof.
  intros (_ & Hn & Hc & _). unfold occupancy_inv. congruence.
Qed.

Lemma step_occupancy_inv actions cp dp st :
  occupancy_inv st -> occupancy_inv (fst (fst (step actions cp dp st))).
Proof.
  intros Hinv. rewrite step_unfold. cbv zeta.
  destruct (negb _); [exact Hinv|].
  destruct (zero_empty_ports _ _ _ _) as [zeroed' [n|e]]; [|exact Hinv].
  match goal with |- context [port_loop ?a ?b ?c ?d ?e ?f] =>
    pose proof (port_loop_keeps a b d c e f) as Hk;
    destruct (port_loop a b c d e f) as [st1 [l|e']]
  end; cbn [fst] in Hk.
  - assert (Hinv1 : occupancy_inv st1).
    { eapply keeps_occupancy_inv; [exact Hk|exact Hinv]. }
    match goal with |- context [departure_scan 0 ?s ?t ?u] =>
      pose proof (departure_scan_inv s 0 t u) as Hscan;
      destruct (departure_scan 0 s t u) as [st3 sat]
    end.
    cbn [fst] in *. apply Hscan; [apply drop_0|exact Hinv1].
  - cbn [fst]. eapply keeps_occupancy_inv; [exact Hk|exact Hinv].
Qed.

Lemma spawn_ev_occupancy_inv ev st :
  occupancy_inv st -> occupancy_inv (fst (spawn_ev ev st)).
Proof.
  intros Hinv. unfold spawn_ev.
  destruct (negb _); [exact Hinv|].
  destruct (index_None _) as [index|] eqn:Hidx; [|exact Hinv].
  apply index_None_Some in Hidx as [Hidx _].
  unfold occupancy_inv in *. cbn.
  rewrite (count_occupied_insert _ _ _ _ Hidx), Hinv. cbn. lia.
Qed.

Lemma reset_occupancy_inv st : occupancy_inv (reset st).
Proof. unfold occupancy_inv. cbn. now rewrite count_occupied_replicate. Qed.

Lemma init_occupancy_inv cfg : occupancy_inv (@init D cfg).
Proof. unfold occupancy_inv. cbn. now rewrite count_occupied_replicate. Qed.

(** The port array keeps its [n_ports] slots. *)
Lemma ports_inv_preserved :
  (forall cfg, (0 <= n_ports cfg)%Z -> ports_inv (@init D cfg)) /\
  (forall actions cp dp st,
     ports_inv st -> ports_inv (fst (fst (step actions cp dp st)))) /\
  (forall ev st, ports_inv st -> ports_inv (fst (spawn_ev ev st))) /\
  (forall st, (0 <= n_ports (config st))%Z -> ports_inv (reset st)).
Proof.
  unfold ports_inv. repeat split.
  - intros cfg Hn. cbn. rewrite length_replicate. lia.
  - intros actions cp dp st Hp. rewrite step_unfold. cbv zeta.
    destruct (negb _); [exact Hp|].
    destruct (zero_empty_ports _ _ _ _) as [zeroed' [n|e]]; [|exact Hp].
    match goal with |- context [port_loop ?a ?b ?c ?d ?e ?f] =>
      pose proof (port_loop_keeps a b d c e f) as (Hc & _ & _ & Hl);
      destruct (port_loop a b c d e f) as [st1 [l|e']]
    end; cbn [fst] in *.
    + destruct (departure_scan _ _ _ _) as [st3 sat] eqn:Hscan.
      apply departure_scan_frame in Hscan as (Hc3 & _ & _ & _ & _ & _ & _ & Hl3).
      cbn in *. now rewrite Hc3, Hc, Hl3, Hl.
    + now rewrite Hc, Hl.
  - intros ev st Hp. unfold spawn_ev.
    destruct (negb _); [exact Hp|].
    destruct (index_None _); [|exact Hp].
    cbn. now rewrite length_insert.
  - intros st Hn. cbn. rewrite length_replicate. lia.
Qed.


(** ** C7: spawn_ev *)

(** C7.  On a station whose counter agrees with its port array of
    [n_ports] slots: when fewer than [n_ports] vehicles are connected,
    [spawn_ev] stores the vehicle, with [id] set to the slot index, in the
    empty slot of lowest index, adds one to the counter and returns that
    index; when [n_ports] vehicles are connected, it fails on its
    assertion and leaves the station as it was. *)
Theorem spawn_ev_spec (ev : EV D) st :
  occupancy_inv st ->
  ports_inv st ->
  ((n_evs_connected st < n_ports (config st))%Z ->
   exists index,
     evs_connected st !! index = Some None /\
     (forall j, (j < index)%nat ->
                exists ev', evs_connected st !! j = Some (Some ev')) /\
     spawn_ev ev st =
       (set_n_evs_connected (n_evs_connected st + 1)%Z
          (set_evs_connected
             (<[index := Some (mkEV index (ev_data ev))]> (evs_connected st))
             st),
        Ok index) /\
     evs_connected (fst (spawn_ev ev st)) !! index =
       Some (Some (mkEV index (ev_data ev))) /\
     n_evs_connected (fst (spawn_ev ev st)) = (n_evs_connected st + 1)%Z) /\
  (n_evs_connected st = n_ports (config st) ->
   spawn_ev ev st = (st, Raise (AssertionError PortAvailable))).
Proof.
  intros Hocc Hports. unfold occupancy_inv, ports_inv in *. split.
  - intros Hlt. unfold spawn_ev.
    rewrite (proj2 (Z.ltb_lt _ _) Hlt). cbn [negb].
    destruct (index_None (evs_connected st)) as [index|] eqn:Hidx.
    + destruct (index_None_Some _ _ Hidx) as [Hempty Hlow].
      exists index. repeat split; try assumption.
      cbn. apply list_lookup_insert_eq.
      apply lookup_lt_is_Some_1. eauto.
    + apply index_None_None in Hidx. lia.
  - intros Heq. unfold spawn_ev.
    rewrite (proj2 (Z.ltb_ge _ _)) by lia. reflexivity.
Qed.

(** ** C8: the occupancy invariant *)

(** C8.  [n_evs_connected] equals the number of slots of the port array
    that hold a vehicle after [__init__], and [step] (whether it returns
    or raises, departure scan included), [spawn_ev] and [reset] keep it
    so; a slot holds at most one vehicle. *)
Theorem occupancy_invariant :
  (forall cfg, occupancy_inv (@init D cfg)) /\
  (forall actions cp dp st,
     occupancy_inv st -> occupancy_inv (fst (fst (step actions cp dp st)))) /\
  (forall ev st, occupancy_inv st -> occupancy_inv (fst (spawn_ev ev st))) /\
  (forall st, occupancy_inv (reset st)) /\
  (forall st i ev1 ev2,
     evs_connected st !! i = Some (Some ev1) ->
     evs_connected st !! i = Some (Some ev2) -> ev1 = ev2).
Proof.
  split; [exact init_occupancy_inv|].
  split; [exact step_occupancy_inv|].
  split; [exact spawn_ev_occupancy_inv|].
  split; [exact reset_occupancy_inv|].
  intros st i ev1 ev2 H1 H2. congruence.
Qed.


(** ** C4: the range assertion *)

Lemma normalize_in_range actions :
  Forall (fun a => -1 <= a <= 1) actions \/
  Forall (fun a => 0 <= a) actions \/
  Forall (fun a => a <= 0) actions ->
  Forall (fun a => -1 <= a <= 1) (normalize actions).
Proof.
  intros Hcases. unfold normalize.
  destruct (Qlt_bool 1 (sum actions)) eqn:Hhi.
  { apply Qlt_bool_true in Hhi. apply Forall_map.
    destruct Hcases as [Hr|[Hp|Hn]].
    - eapply Forall_impl; [exact Hr|]. intros a Ha. cbv beta in Ha |- *.
      apply div_in_range; lra.
    - destruct (sum_nonneg _ Hp) as [_ Hle].
      rewrite Forall_forall in Hp, Hle. apply Forall_forall. intros a Ha.
      specialize (Hp a Ha). specialize (Hle a Ha). cbv beta in Hp, Hle |- *.
      apply div_in_range; lra.
    - destruct (sum_nonpos _ Hn) as [Hs _]. lra. }
  apply Qlt_bool_false in Hhi.
  destruct (Qlt_bool (sum actions) (-1)) eqn:Hlo.
  { apply Qlt_bool_true in Hlo. apply Forall_map.
    destruct Hcases as [Hr|[Hp|Hn]].
    - eapply Forall_impl; [exact Hr|]. intros a Ha. cbv beta in Ha |- *.
      apply neg_div_in_range; lra.
    - destruct (sum_nonneg _ Hp) as [Hs _]. lra.
    - destruct (sum_nonpos _ Hn) as [_ Hle].
      rewrite Forall_forall in Hn, Hle. apply Forall_forall. intros a Ha.
      specialize (Hn a Ha). specialize (Hle a Ha). cbv beta in Hn, Hle |- *.
      apply neg_div_in_range; lra. }
  apply Qlt_bool_false in Hlo.
  destruct Hcases as [Hr|[Hp|Hn]].
  - exact Hr.
  - destruct (sum_nonneg _ Hp) as [_ Hle].
    rewrite Forall_forall in Hp, Hle. apply Forall_forall. intros a Ha.
    specialize (Hp a Ha). specialize (Hle a Ha). cbv beta in Hp, Hle |- *. lra.
  - destruct (sum_nonpos _ Hn) as [_ Hle].
    rewrite Forall_forall in Hn, Hle. apply Forall_forall. intros a Ha.
    specialize (Hn a Ha). specialize (Hle a Ha). cbv beta in Hn, Hle |- *. lra.
Qed.


Lemma drive_no_assertion i amps st l a :
  snd (drive i amps st l) <> Raise (AssertionError a).
Proof.
  unfold drive, vehicle_at.
  destruct (evs_connected st !! i) as [[ev|]|]; try discriminate.
  destruct (ev_step _ _ _ ev) as [ev' [power amps']]. discriminate.
Qed.

Lemma dispatch_no_assertion cp dp i action st l a :
  snd (dispatch cp dp i action st l) <> Raise (AssertionError a).
Proof.
  assert (Hc : forall st l, snd (account_charge cp st l)
                            <> Raise (AssertionError a)).
  { intros st' l'. unfold account_charge.
    destruct (actual_power l'), (actual_amps l'); discriminate. }
  assert (Hd : forall st l, snd (account_discharge dp st l)
                            <> Raise (AssertionError a)).
  { intros st' l'. unfold account_discharge.
    destruct (actual_power l'); [|discriminate]. cbn.
    destruct (actual_amps l'); discriminate. }
  unfold dispatch.
  destruct (Qeq_bool action 0).
  { destruct (evs_connected st !! i) as [[ev|]|]; try discriminate.
    destruct (ev_step _ _ _ ev) as [ev' r]. discriminate. }
  destruct (Qlt_bool 0 action).
  { pose proof (drive_no_assertion i (charge_amps (config st) action) st l a).
    destruct (drive _ _ _ _) as [st1 [l1|e]]; [apply Hc|assumption]. }
  destruct (Qlt_bool action 0); [|discriminate].
  cbv zeta. destruct (negb _); [apply Hd|].
  pose proof (drive_no_assertion i (discharge_amps (config st) action) st l a).
  destruct (drive _ _ _ _) as [st1 [l1|e]]; [apply Hd|assumption].
Qed.

Lemma check_port_no_assertion i st l a :
  snd (check_port i st l) <> Raise (AssertionError a).
Proof.
  unfold check_port. destruct (Qlt_bool _ _); [discriminate|].
  destruct (verbose _); [|discriminate].
  destruct (evs_connected st !! i) as [[ev|]|]; try discriminate.
  destruct (actual_power l), (actual_amps l); discriminate.
Qed.

Lemma port_loop_in_range cp dp acts : forall i st l,
  Forall (fun a => -1 <= a <= 1) acts ->
  snd (port_loop cp dp i acts st l) <> Raise (AssertionError ActionRange).
Proof.
  induction acts as [|a rest IH]; intros i st l Hall; cbn [port_loop].
  - discriminate.
  - apply Forall_cons in Hall as [Ha Hrest].
    destruct (port_step cp dp i a st l) as [st1 [l1|e]] eqn:Hstep.
    + now apply IH.
    + cbn [snd]. intros [= ->]. revert Hstep. unfold port_step.
      rewrite (proj2 (in_range_true _) (round5_range _ Ha)).
      pose proof (dispatch_no_assertion cp dp i (round5 a) st l ActionRange)
        as Hd.
      destruct (dispatch _ _ _ _ _ _) as [st2 [l2|e2]]; cbn [snd] in Hd.
      * intros Hc.
        apply (check_port_no_assertion i st2 l2 ActionRange).
        now rewrite Hc.
      * congruence.
Qed.

Lemma zeroed_Forall (P : Q -> Prop) slots actions :
  P 0 ->
  (forall i a ev, actions !! i = Some a ->
                  slots !! i = Some (Some ev) -> P a) ->
  Forall P (zeroed slots actions).
Proof.
  intros P0 Hocc. apply Forall_lookup. intros i x. unfold zeroed.
  rewrite lookup_zip_with.
  destruct (slots !! i) as [slot|] eqn:Hs; [|discriminate].
  destruct (actions !! i) as [a|] eqn:Ha; [|discriminate].
  cbn. intros [= <-]. destruct slot as [ev|]; [|exact P0].
  now apply (Hocc i a ev).
Qed.

(** C4, amended.  When the actions given for the occupied ports all lie
    in [-1, 1], or are all non-negative, or are all non-positive, every
    action after zeroing, normalisation and rounding lies in [-1, 1] and
    the range assertion of [step] does not fail. *)
Theorem step_action_range st actions cp dp :
  ports_inv st ->
  Z.of_nat (length actions) = n_ports (config st) ->
  (forall i a ev, actions !! i = Some a ->
      evs_connected st !! i = Some (Some ev) -> -1 <= a <= 1) \/
  (forall i a ev, actions !! i = Some a ->
      evs_connected st !! i = Some (Some ev) -> 0 <= a) \/
  (forall i a ev, actions !! i = Some a ->
      evs_connected st !! i = Some (Some ev) -> a <= 0) ->
  Forall (fun a => -1 <= round5 a <= 1)
    (normalize (zeroed (evs_connected st) actions)) /\
  snd (step actions cp dp st) <> Raise (AssertionError ActionRange).
Proof.
  intros Hports Hlen Hcases.
  assert (Hnorm : Forall (fun a => -1 <= a <= 1)
                    (normalize (zeroed (evs_connected st) actions))).
  { apply normalize_in_range.
    destruct Hcases as [Hr|[Hp|Hn]]; [left|right; left|right; right];
      apply zeroed_Forall; try assumption; lra. }
  split.
  - eapply Forall_impl; [exact Hnorm|]. intros a Ha. now apply round5_range.
  - rewrite step_unfold. cbv zeta.
    rewrite (proj2 (Z.eqb_eq _ _) Hlen). cbn [negb].
    rewrite zero_empty_ports_spec by (unfold ports_inv in Hports; lia).
    match goal with |- context [port_loop ?a ?b ?c ?d ?e ?f] =>
      pose proof (port_loop_in_range a b d c e f Hnorm) as Hloop;
      destruct (port_loop a b c d e f) as [st1 [l|e']]
    end; cbn [snd] in *.
    + destruct (departure_scan _ _ _ _) as [st3 sat]. discriminate.
    + intros [= ->]. now apply Hloop.
Qed.


(** ** C5: discharging on a bidirectional station *)

Lemma discharge_amps_min cfg action :
  discharge_amps cfg action ==
    Qmin (action * Qabs (max_charge_current cfg)) (min_discharge_current cfg)
  /\ discharge_amps cfg action <= min_discharge_current cfg.
Proof.
  unfold discharge_amps. cbv zeta.
  destruct (Qlt_bool _ _) eqn:Hlt.
  - apply Qlt_bool_true in Hlt. split; [|lra].
    symmetry. apply Q.min_r. lra.
  - apply Qlt_bool_false in Hlt. split; [|lra].
    symmetry. apply Q.min_l. lra.
Qed.

(** C5, amended.  On a bidirectional station, for an occupied port whose
    rounded action is negative, the current requested from the vehicle is
    the smaller of action * |max_charge_current| and
    [min_discharge_current]: it is never above [min_discharge_current],
    so for a negative [min_discharge_current] its magnitude is at least
    |min_discharge_current|.  The vehicle steps with that current, the
    voltage and the charger type; the profit grows by |actual power| *
    discharge_price, [total_energy_discharged] by |actual power|,
    [current_power_output] by the actual power and [current_total_amps]
    by the actual current; then the over-current check runs. *)
Theorem port_step_discharge cp dp i action st l (ev : EV D) :
  bi_directional (config st) = true ->
  evs_connected st !! i = Some (Some ev) ->
  -1 <= round5 action ->
  round5 action < 0 ->
  let cfg := config st in
  let amps := discharge_amps cfg (round5 action) in
  let r := ev_step amps (Some (voltage cfg)) (Some (charger_type cfg)) ev in
  let power := fst (snd r) in
  let st1 :=
    set_current_total_amps (current_total_amps st + snd (snd r))
      (set_current_power_output (current_power_output st + power)
         (set_total_energy_discharged
            (total_energy_discharged st + Qabs power)
            (set_evs_connected (<[i := Some (fst r)]> (evs_connected st))
               st))) in
  let l1 := mkLocals (profit l + Qabs power * dp) (Some power)
              (Some (snd (snd r))) in
  amps == Qmin (round5 action * Qabs (max_charge_current cfg))
            (min_discharge_current cfg) /\
  amps <= min_discharge_current cfg /\
  (min_discharge_current cfg <= 0 ->
   Qabs (min_discharge_current cfg) <= Qabs amps) /\
  dispatch cp dp i (round5 action) st l = (st1, Ok l1) /\
  port_step cp dp i action st l = check_port i st1 l1.
Proof.
  intros Hbi Hi Hlo Hneg cfg amps r power st1 l1.
  destruct (discharge_amps_min cfg (round5 action)) as [Hmin Hle].
  assert (Hd : dispatch cp dp i (round5 action) st l = (st1, Ok l1)).
  { unfold dispatch.
    assert (H0 : Qeq_bool (round5 action) 0 = false).
    { destruct (Qeq_bool _ _) eqn:E; [|reflexivity].
      apply Qeq_bool_iff in E. lra. }
    assert (H1 : Qlt_bool 0 (round5 action) = false)
      by (apply Qlt_bool_false; lra).
    rewrite H0, H1, (proj2 (Qlt_bool_true _ _) Hneg), Hbi.
    cbn [negb]. cbv zeta. unfold drive, vehicle_at. rewrite Hi.
    subst st1 l1 power r amps cfg.
    destruct (ev_step _ _ _ ev) as [ev' [p a']]. reflexivity. }
  repeat split; try assumption.
  - intros Hnp. subst amps.
    pose proof (Qabs_neg _ Hnp) as E1.
    assert (Hn : discharge_amps cfg (round5 action) <= 0) by lra.
    pose proof (Qabs_neg _ Hn) as E2. lra.
  - unfold port_step.
    rewrite (proj2 (in_range_true _)) by (split; lra).
    now rewrite Hd.
Qed.


(** ** C9: reset *)

Lemma get_state_empty (t : Z) (n : nat) :
  concat (map (fun slot : option (EV D) =>
                 match slot with
                 | Some ev => ev_get_state t ev
                 | None => [0; 0]
                 end) (replicate n None)) = replicate (2 * n) 0.
Proof.
  induction n as [|n IH]; [reflexivity|].
  replace (2 * S n)%nat with (S (S (2 * n))) by lia.
  cbn [replicate map concat]. now rewrite IH.
Qed.

(** What [reset] assigns: every status and statistics attribute except
    the two prices. *)
Lemma reset_effect st :
  let st' := reset st in
  let n := Z.to_nat (n_ports (config st)) in
  config st' = config st /\
  current_charge_price st' = current_charge_price st /\
  current_discharge_price st' = current_discharge_price st /\
  current_power_output st' = 0 /\
  current_total_amps st' = 0 /\
  evs_connected st' = replicate n None /\
  n_evs_connected st' = 0%Z /\
  current_step st' = 0%Z /\
  total_energy_charged st' = 0 /\
  total_energy_discharged st' = 0 /\
  total_profits st' = 0 /\
  total_evs_served st' = 0%Z /\
  total_user_satisfaction st' = 0 /\
  get_avg_user_satisfaction st' = 0 /\
  get_state st' =
    [current_charge_price st; current_discharge_price st]
    ++ replicate (2 * n) 0.
Proof.
  intros st' n. subst st' n. repeat split.
  unfold get_state. cbn [reset evs_connected current_charge_price
    current_discharge_price current_step].
  unfold reset. cbn. f_equal. f_equal. apply get_state_empty.
Qed.


End StationFacts.

(** * Further properties of the methods *)

Section StepFacts.
Context {D : Type} `{!Vehicle D}.
Implicit Types (st : Charger D) (l : locals) (actions : list Q).
Implicit Types (slots : list (option (EV D))).

(** Reading an attribute of a station just assigned. *)
Ltac fields :=
  cbn [config current_power_output evs_connected n_evs_connected
       current_step current_charge_price current_discharge_price
       current_total_amps total_energy_charged total_energy_discharged
       total_profits total_evs_served total_user_satisfaction
       set_current_power_output set_evs_connected set_n_evs_connected
       set_current_step set_current_charge_price
       set_current_discharge_price set_current_total_amps
       set_total_energy_charged set_total_energy_discharged
       set_total_profits set_total_evs_served set_total_user_satisfaction
       profit actual_power actual_amps fst snd] in *.

(** ** What the main loop leaves alone *)

Lemma loop_frame_refl st : loop_frame st st.
Proof. unfold loop_frame. repeat split; lra. Qed.

Lemma loop_frame_trans st1 st2 st3 :
  loop_frame st1 st2 -> loop_frame st2 st3 -> loop_frame st1 st3.
Proof.
  unfold loop_frame.
  intros (A1 & A2 & A3 & A4 & A5 & A6 & A7 & A8 & A9 & A10 & A11)
         (B1 & B2 & B3 & B4 & B5 & B6 & B7 & B8 & B9 & B10 & B11).
  repeat split; try congruence; lra.
Qed.

Lemma occupancy_insert_Some slots i (ev ev' : EV D) :
  slots !! i = Some (Some ev) ->
  occupancy (<[i := Some ev']> slots) = occupancy slots.
Proof.
  revert i. induction slots as [|s rest IH]; intros [|i]; try discriminate.
  - intros [= ->]. reflexivity.
  - change ((s :: rest) !! S i) with (rest !! i). intros Hi.
    change (<[S i:=Some ev']> (s :: rest)) with (s :: <[i:=Some ev']> rest).
    unfold occupancy in *. cbn [map]. now rewrite (IH _ Hi).
Qed.

Lemma loop_frame_step_vehicle i (ev ev' : EV D) st :
  evs_connected st !! i = Some (Some ev) ->
  loop_frame st (set_evs_connected (<[i := Some ev']> (evs_connected st)) st).
Proof.
  intros Hi. unfold loop_frame. fields.
  rewrite (occupancy_insert_Some _ _ _ _ Hi). repeat split; lra.
Qed.

Lemma drive_frame i amps st l :
  loop_frame st (fst (drive i amps st l)).
Proof.
  unfold drive, vehicle_at.
  destruct (evs_connected st !! i) as [[ev|]|] eqn:Hi;
    try apply loop_frame_refl.
  destruct (ev_step _ _ _ ev) as [ev' [power amps']]. cbn [fst].
  now apply loop_frame_step_vehicle with ev.
Qed.

Lemma account_charge_frame cp st l :
  loop_frame st (fst (account_charge cp st l)).
Proof.
  unfold account_charge.
  destruct (actual_power l) as [power|], (actual_amps l);
    try apply loop_frame_refl.
  unfold loop_frame. fields. pose proof (Qabs_nonneg power).
  repeat split; lra.
Qed.

Lemma account_discharge_frame dp st l :
  loop_frame st (fst (account_discharge dp st l)).
Proof.
  unfold account_discharge.
  destruct (actual_power l) as [power|]; [|apply loop_frame_refl].
  cbv zeta. fields.
  pose proof (Qabs_nonneg power).
  destruct (actual_amps l); unfold loop_frame; fields; repeat split; lra.
Qed.

Lemma dispatch_frame cp dp i action st l :
  loop_frame st (fst (dispatch cp dp i action st l)).
Proof.
  unfold dispatch.
  destruct (Qeq_bool action 0).
  { destruct (evs_connected st !! i) as [[ev|]|] eqn:Hi;
      try apply loop_frame_refl.
    destruct (ev_step _ _ _ ev) as [ev' r]. cbn [fst].
    now apply loop_frame_step_vehicle with ev. }
  destruct (Qlt_bool 0 action).
  { pose proof (drive_frame i (charge_amps (config st) action) st l) as Hd.
    destruct (drive _ _ _ _) as [st1 [l1|e]]; cbn [fst] in *; [|exact Hd].
    eapply loop_frame_trans; [exact Hd|apply account_charge_frame]. }
  destruct (Qlt_bool action 0); [|apply loop_frame_refl].
  cbv zeta. destruct (negb _).
  { apply account_discharge_frame. }
  pose proof (drive_frame i (discharge_amps (config st) action) st l) as Hd.
  destruct (drive _ _ _ _) as [st1 [l1|e]]; cbn [fst] in *; [|exact Hd].
  eapply loop_frame_trans; [exact Hd|apply account_discharge_frame].
Qed.

Lemma port_step_frame cp dp i action st l :
  loop_frame st (fst (port_step cp dp i action st l)).
Proof.
  unfold port_step. destruct (negb _); [apply loop_frame_refl|].
  pose proof (dispatch_frame cp dp i (round5 action) st l) as Hd.
  destruct (dispatch _ _ _ _ _ _) as [st1 [l1|e]]; cbn [fst] in *;
    [|exact Hd].
  now rewrite check_port_state.
Qed.

Lemma port_loop_frame cp dp acts : forall i st l,
  loop_frame st (fst (port_loop cp dp i acts st l)).
Proof.
  induction acts as [|a rest IH]; intros i st l; cbn [port_loop].
  - apply loop_frame_refl.
  - pose proof (port_step_frame cp dp i a st l) as Hs.
    destruct (port_step _ _ _ _ _ _) as [st1 [l1|e]]; cbn [fst] in *;
      [|exact Hs].
    eapply loop_frame_trans; [exact Hs|apply IH].
Qed.

(** ** The parts of a call of [step] that returns *)

Lemma step_ok_inv actions cp dp st st' actions' p sat n :
  step actions cp dp st = (st', actions', Ok (p, sat, n)) ->
  exists zeroed' st1 l st3,
    Z.of_nat (length actions) = n_ports (config st) /\
    zero_empty_ports (evs_connected st) (seq 0 (length actions)) actions 0
      = (zeroed', Ok n) /\
    port_loop cp dp 0 (normalize zeroed') (begin_step cp dp st)
      (mkLocals 0 None None) = (st1, Ok l) /\
    p = profit l /\
    departure_scan 0 (evs_connected st1)
      (set_total_profits (total_profits st1 + profit l) st1) []
      = (st3, sat) /\
    st' = set_current_step (current_step st3 + 1)%Z st3 /\
    actions' = zeroed'.
Proof.
  rewrite step_unfold. cbv zeta. fold (begin_step cp dp st).
  destruct (negb _) eqn:Hlen; [discriminate|].
  apply negb_false_iff, Z.eqb_eq in Hlen.
  destruct (zero_empty_ports _ _ _ _) as [zeroed' [n'|e]] eqn:Hz;
    [|discriminate].
  destruct (port_loop _ _ _ _ _ _) as [st1 [l|e]] eqn:Hloop;
    [|discriminate].
  destruct (departure_scan _ _ _ _) as [st3 sat3] eqn:Hscan.
  intros [= <- <- <- <- <-].
  exists zeroed', st1, l, st3. fields. repeat split; assumption.
Qed.

Lemma begin_step_frame cp dp st :
  config (begin_step cp dp st) = config st /\
  evs_connected (begin_step cp dp st) = evs_connected st /\
  n_evs_connected (begin_step cp dp st) = n_evs_connected st /\
  current_step (begin_step cp dp st) = current_step st /\
  total_profits (begin_step cp dp st) = total_profits st /\
  total_evs_served (begin_step cp dp st) = total_evs_served st /\
  total_user_satisfaction (begin_step cp dp st) = total_user_satisfaction st /\
  total_energy_charged (begin_step cp dp st) = total_energy_charged st /\
  total_energy_discharged (begin_step cp dp st) = total_energy_discharged st.
Proof. repeat split. Qed.

(** ** The departure scan *)

Lemma departure_scan_spec slots : forall i st sat,
  drop i (evs_connected st) = slots ->
  let t := current_step st in
  let r := departure_scan i slots st sat in
  let gone := departing_scores t slots in
  evs_connected (fst r)
    = take i (evs_connected st) ++ after_departures t slots /\
  snd r = sat ++ gone /\
  n_evs_connected (fst r) = (n_evs_connected st - Z.of_nat (length gone))%Z /\
  total_evs_served (fst r)
    = (total_evs_served st + Z.of_nat (length gone))%Z /\
  total_user_satisfaction (fst r) == total_user_satisfaction st + sum gone.
Proof.
  induction slots as [|[ev|] rest IH]; intros i st sat Hdrop; cbv zeta;
    cbn [departure_scan departing_scores after_departures map].
  - cbn [fst snd length]. rewrite !app_nil_r, Z.sub_0_r, Z.add_0_r.
    assert (Hge : (length (evs_connected st) <= i)%nat).
    { destruct (Nat.le_gt_cases (length (evs_connected st)) i) as [Hle|Hlt];
        [exact Hle|].
      apply (f_equal length) in Hdrop. rewrite length_drop in Hdrop.
      cbn in Hdrop. lia. }
    rewrite take_ge by exact Hge.
    repeat split. unfold sum. cbn [fold_left]. lra.
  - apply drop_cons_inv in Hdrop as [Hi Hrest].
    destruct (ev_is_departing (current_step st) ev) eqn:Hdep.
    + match goal with |- context [departure_scan (S i) rest ?s ?u] =>
        specialize (IH (S i) s u)
      end.
      cbv zeta in IH. fields.
      rewrite drop_insert_lt in IH by lia. specialize (IH Hrest).
      destruct IH as (E1 & E2 & E3 & E4 & E5).
      assert (Hi' : <[i:=None]> (evs_connected st) !! i = Some None).
      { apply list_lookup_insert_eq. apply lookup_lt_is_Some_1. eauto. }
      rewrite (take_S_r _ _ _ Hi'), take_insert_ge in E1 by lia.
      rewrite E1, E2, E3, E4, E5. cbn [length].
      rewrite <- !app_assoc. repeat split; try lia.
      rewrite sum_cons. lra.
    + specialize (IH (S i) st sat Hrest). cbv zeta in IH.
      destruct IH as (E1 & E2 & E3 & E4 & E5).
      rewrite (take_S_r _ _ _ Hi), <- app_assoc in E1.
      repeat split; assumption.
  - apply drop_cons_inv in Hdrop as [Hi Hrest].
    specialize (IH (S i) st sat Hrest). cbv zeta in IH.
    destruct IH as (E1 & E2 & E3 & E4 & E5).
    rewrite (take_S_r _ _ _ Hi), <- app_assoc in E1.
    repeat split; assumption.
Qed.


Lemma occupancy_lookup slots i :
  occupancy slots !! i
  = (fun slot : option (EV D) =>
       match slot with Some _ => true | None => false end) <$> slots !! i.
Proof. unfold occupancy. apply list_lookup_fmap. Qed.

Lemma occupancy_empty slots slots' i :
  occupancy slots' = occupancy slots ->
  slots !! i = Some None -> slots' !! i = Some None.
Proof.
  intros Hocc Hi. apply (f_equal (fun o => o !! i)) in Hocc.
  rewrite !occupancy_lookup, Hi in Hocc.
  destruct (slots' !! i) as [[ev|]|]; try discriminate. reflexivity.
Qed.

Lemma after_departures_lookup t slots i :
  after_departures t slots !! i
  = (fun slot : option (EV D) =>
       match slot with
       | Some ev => if ev_is_departing t ev then None else Some ev
       | None => None
       end) <$> slots !! i.
Proof. unfold after_departures. apply list_lookup_fmap. Qed.


(** When [step] returns, no vehicle still connected is departing at the
    step that was current at the call, a port that was empty is still
    empty, and the port array has as many slots as before. *)
Theorem step_departed_ports actions cp dp st st' actions' p sat n :
  step actions cp dp st = (st', actions', Ok (p, sat, n)) ->
  (forall i ev, evs_connected st' !! i = Some (Some ev) ->
                ev_is_departing (current_step st) ev = false) /\
  (forall i, evs_connected st !! i = Some None ->
             evs_connected st' !! i = Some None) /\
  length (evs_connected st') = length (evs_connected st).
Proof.
  intros Hstep.
  apply step_ok_inv in Hstep
    as (zeroed' & st1 & l & st3 & _ & _ & Hloop & _ & Hscan & -> & _).
  pose proof (port_loop_frame cp dp (normalize zeroed') 0%nat
                (begin_step cp dp st) (mkLocals 0 None None)) as Hf.
  rewrite Hloop in Hf. fields.
  destruct Hf as (_ & Hocc & _ & Hstep1 & _).
  match type of Hscan with departure_scan 0 ?s ?t ?u = _ =>
    pose proof (departure_scan_spec s 0%nat t u (drop_0 _)) as Hspec
  end.
  cbv zeta in Hspec. rewrite Hscan in Hspec. fields.
  destruct Hspec as (Hports & _). rewrite take_0, app_nil_l in Hports.
  rewrite Hports, Hstep1.
  change (current_step (begin_step cp dp st)) with (current_step st).
  change (evs_connected (begin_step cp dp st)) with (evs_connected st)
    in Hocc.
  split; [|split].
  - intros i ev. rewrite after_departures_lookup.
    destruct (evs_connected st1 !! i) as [[ev1|]|]; try discriminate.
    cbn. destruct (ev_is_departing (current_step st) ev1) eqn:Hdep;
      [discriminate|].
    now intros [= <-].
  - intros i Hi. rewrite after_departures_lookup.
    now rewrite (occupancy_empty _ _ _ Hocc Hi).
  - unfold after_departures. rewrite length_map.
    apply (f_equal length) in Hocc. unfold occupancy in Hocc.
    now rewrite !length_map in Hocc.
Qed.


(** ** What a call of [step] changes *)

Lemma departure_scan_energy slots : forall i st sat,
  total_energy_charged (fst (departure_scan i slots st sat))
    = total_energy_charged st /\
  total_energy_discharged (fst (departure_scan i slots st sat))
    = total_energy_discharged st.
Proof.
  induction slots as [|[ev|] rest IH]; intros i st sat;
    cbn [departure_scan]; [split; reflexivity| |apply IH].
  destruct (ev_is_departing _ _); [|apply IH].
  match goal with |- context [departure_scan (S i) rest ?s ?u] =>
    destruct (IH (S i) s u) as [E1 E2]
  end.
  rewrite E1, E2. split; reflexivity.
Qed.

Lemma step_frame_cases actions cp dp st :
  let r := step actions cp dp st in
  let st' := fst (fst r) in
  config st' = config st /\
  current_charge_price st' = cp /\
  current_discharge_price st' = dp /\
  length (evs_connected st') = length (evs_connected st) /\
  total_energy_charged st <= total_energy_charged st' /\
  total_energy_discharged st <= total_energy_discharged st' /\
  match snd r with
  | Ok (p, _, _) =>
      current_step st' = (current_step st + 1)%Z /\
      total_profits st' = total_profits st + p
  | Raise _ =>
      current_step st' = current_step st /\
      total_profits st' = total_profits st /\
      n_evs_connected st' = n_evs_connected st /\
      total_evs_served st' = total_evs_served st /\
      total_user_satisfaction st' = total_user_satisfaction st /\
      occupancy (evs_connected st') = occupancy (evs_connected st)
  end.
Proof.
  cbv zeta. rewrite step_unfold. cbv zeta. fold (begin_step cp dp st).
  destruct (negb _).
  { fields. unfold begin_step. fields. repeat split; lra. }
  destruct (zero_empty_ports _ _ _ _) as [zeroed' [n|e]].
  2:{ fields. unfold begin_step. fields. repeat split; lra. }
  pose proof (port_loop_frame cp dp (normalize zeroed') 0%nat
                (begin_step cp dp st) (mkLocals 0 None None)) as Hf.
  destruct (port_loop _ _ _ _ _ _) as [st1 [l|e]]; fields;
    destruct Hf as (F1 & F2 & F3 & F4 & F5 & F6 & F7 & F8 & F9 & F10 & F11);
    assert (Hlen : length (evs_connected st1) = length (evs_connected st))
      by (apply (f_equal length) in F2; unfold occupancy in F2;
          now rewrite !length_map in F2).
  - destruct (departure_scan _ _ _ _) as [st3 sat] eqn:Hscan.
    pose proof (departure_scan_energy (evs_connected st1) 0%nat
                  (set_total_profits (total_profits st1 + profit l) st1) [])
      as [E1 E2].
    rewrite Hscan in E1, E2.
    apply departure_scan_frame in Hscan
      as (G1 & _ & _ & G4 & G5 & G6 & G7 & G8).
    fields. rewrite G1, G4, G5, G6, G7, G8, E1, E2, F1, F4, F5, F6, F7, Hlen.
    unfold begin_step in *. fields. repeat split; assumption.
  - rewrite F1, F3, F4, F5, F6, F7, F8, F9, F2, Hlen.
    unfold begin_step in *. fields. repeat split; assumption.
Qed.

(** Whatever the outcome, [step] keeps the configuration and the number
    of slots, records the two prices, and does not lower the energy
    counters.  When it returns, the step counter is one more and
    [total_profits] has grown by the profit returned.  When it raises,
    the step counter, [total_profits], the departure statistics and the
    ports' occupancy are those of the call. *)
Theorem step_frame actions cp dp st :
  let r := step actions cp dp st in
  let st' := fst (fst r) in
  config st' = config st /\
  current_charge_price st' = cp /\
  current_discharge_price st' = dp /\
  length (evs_connected st') = length (evs_connected st) /\
  total_energy_charged st <= total_energy_charged st' /\
  total_energy_discharged st <= total_energy_discharged st' /\
  match snd r with
  | Ok (p, _, _) =>
      current_step st' = (current_step st + 1)%Z /\
      total_profits st' = total_profits st + p
  | Raise _ =>
      current_step st' = current_step st /\
      total_profits st' = total_profits st /\
      n_evs_connected st' = n_evs_connected st /\
      total_evs_served st' = total_evs_served st /\
      total_user_satisfaction st' = total_user_satisfaction st /\
      occupancy (evs_connected st') = occupancy (evs_connected st)
  end.
Proof. exact (step_frame_cases actions cp dp st). Qed.

(** ** The profit of a step *)

Lemma drive_profit i amps st l st' l' :
  drive i amps st l = (st', Ok l') -> profit l' = profit l.
Proof.
  unfold drive. destruct (vehicle_at i st) as [ev|e]; [|discriminate].
  destruct (ev_step _ _ _ ev) as [ev' [power amps']].
  now intros [= _ <-].
Qed.

Lemma account_charge_profit cp st l st' l' :
  0 <= cp ->
  account_charge cp st l = (st', Ok l') -> profit l <= profit l'.
Proof.
  intros Hcp. unfold account_charge.
  destruct (actual_power l) as [power|], (actual_amps l); try discriminate.
  intros [= _ <-]. fields. pose proof (Qabs_nonneg power). nra.
Qed.

Lemma account_discharge_profit dp st l st' l' :
  0 <= dp ->
  account_discharge dp st l = (st', Ok l') -> profit l <= profit l'.
Proof.
  intros Hdp. unfold account_discharge.
  destruct (actual_power l) as [power|]; [|discriminate].
  cbv zeta. fields. destruct (actual_amps l); [|discriminate].
  intros [= _ <-]. fields. pose proof (Qabs_nonneg power). nra.
Qed.

Lemma dispatch_profit cp dp i action st l st' l' :
  0 <= cp -> 0 <= dp ->
  dispatch cp dp i action st l = (st', Ok l') -> profit l <= profit l'.
Proof.
  intros Hcp Hdp. unfold dispatch.
  destruct (Qeq_bool action 0).
  { destruct (evs_connected st !! i) as [[ev|]|]; try discriminate.
    - destruct (ev_step _ _ _ ev) as [ev' r]. intros [= _ <-]. lra.
    - intros [= _ <-]. lra. }
  destruct (Qlt_bool 0 action).
  { destruct (drive _ _ _ _) as [st1 [l1|e]] eqn:Hd; [|discriminate].
    apply drive_profit in Hd. intros Ha.
    apply account_charge_profit in Ha; [now rewrite <- Hd|exact Hcp]. }
  destruct (Qlt_bool action 0); [|intros [= _ <-]; lra].
  cbv zeta. destruct (negb _).
  { intros Ha. apply account_discharge_profit in Ha; [|exact Hdp].
    fields. exact Ha. }
  destruct (drive _ _ _ _) as [st1 [l1|e]] eqn:Hd; [|discriminate].
  apply drive_profit in Hd. intros Ha.
  apply account_discharge_profit in Ha; [now rewrite <- Hd|exact Hdp].
Qed.

Lemma port_loop_profit cp dp acts : forall i st l st' l',
  0 <= cp -> 0 <= dp ->
  port_loop cp dp i acts st l = (st', Ok l') -> profit l <= profit l'.
Proof.
  induction acts as [|a rest IH]; intros i st l st' l' Hcp Hdp;
    cbn [port_loop].
  - intros [= _ <-]. lra.
  - destruct (port_step cp dp i a st l) as [st1 [l1|e]] eqn:Hs;
      [|discriminate].
    intros Hrest. apply IH in Hrest; [|assumption..].
    revert Hs. unfold port_step.
    destruct (negb _); [discriminate|].
    destruct (dispatch _ _ _ _ _ _) as [st2 [l2|e]] eqn:Hd; [|discriminate].
    intros Hc. apply check_port_ok in Hc as (_ & -> & _).
    apply dispatch_profit in Hd; [lra|assumption..].
Qed.

(** With non-negative prices, the profit [step] returns is not negative
    (charging and discharging both add |power| times the price), and
    [total_profits] does not go down. *)
Theorem step_profit_nonneg actions cp dp st st' actions' p sat n :
  0 <= cp -> 0 <= dp ->
  step actions cp dp st = (st', actions', Ok (p, sat, n)) ->
  0 <= p /\ total_profits st <= total_profits st'.
Proof.
  intros Hcp Hdp Hstep.
  pose proof (step_frame_cases actions cp dp st) as Hf. cbv zeta in Hf.
  rewrite Hstep in Hf. fields.
  destruct Hf as (_ & _ & _ & _ & _ & _ & _ & Hp).
  apply step_ok_inv in Hstep
    as (zeroed' & st1 & l & st3 & _ & _ & Hloop & -> & _).
  apply port_loop_profit in Hloop; [|assumption..]. fields.
  split; [exact Hloop|]. rewrite Hp. lra.
Qed.


(** ** The exceptions of [step] *)

Lemma round5_zero (x : Q) : x == 0 -> round5 x == 0.
Proof.
  intros Hx. unfold round5.
  assert (H1 : (0 <= round_half_even (x * 100000))%Z).
  { apply round_half_even_lower. change (inject_Z 0) with 0. lra. }
  assert (H2 : (round_half_even (x * 100000) <= 0)%Z).
  { apply round_half_even_upper. change (inject_Z 0) with 0. lra. }
  replace (round_half_even (x * 100000)) with 0%Z by lia. reflexivity.
Qed.

Lemma normalize_zero (b : bool) (a : Q) actions :
  (b = false -> a == 0) ->
  (b = false -> (a / sum actions) == 0) /\
  (b = false -> (- a / sum actions) == 0).
Proof.
  intros Ha. split; intros Hb; rewrite (Ha Hb);
    unfold Qdiv; lra.
Qed.

Lemma normalize_quiet (occ : list bool) actions :
  Forall2 (fun (b : bool) a => b = false -> a == 0) occ actions ->
  Forall2 (fun (b : bool) a => b = false -> round5 a == 0) occ
    (normalize actions).
Proof.
  intros Hq. unfold normalize.
  destruct (Qlt_bool 1 _); [|destruct (Qlt_bool _ _)].
  - change (map ?f ?x) with (f <$> x). apply Forall2_fmap_r.
    eapply Forall2_impl; [exact Hq|]. intros b a Ha Hb. cbv beta.
    apply round5_zero. now apply (normalize_zero b a actions Ha).
  - change (map ?f ?x) with (f <$> x). apply Forall2_fmap_r.
    eapply Forall2_impl; [exact Hq|]. intros b a Ha Hb. cbv beta.
    apply round5_zero. now apply (normalize_zero b a actions Ha).
  - eapply Forall2_impl; [exact Hq|]. intros b a Ha Hb.
    apply round5_zero. now apply Ha.
Qed.

Lemma zeroed_quiet slots actions :
  length slots = length actions ->
  Forall2 (fun (b : bool) a => b = false -> a == 0) (occupancy slots)
    (zeroed slots actions).
Proof.
  revert actions. induction slots as [|slot rest IH]; intros [|a actions];
    try discriminate; cbn [length]; intros Hlen.
  - constructor.
  - unfold occupancy, zeroed in *. cbn [map zip_with]. constructor.
    + destruct slot; [discriminate|reflexivity].
    + apply IH. lia.
Qed.

Lemma port_step_lookup_safe cp dp i action st l slot :
  evs_connected st !! i = Some slot ->
  (slot = None -> round5 action == 0) ->
  snd (port_step cp dp i action st l) <> Raise IndexError /\
  snd (port_step cp dp i action st l) <> Raise AttributeError.
Proof.
  intros Hi Hq. unfold port_step.
  destruct (negb _); [split; discriminate|].
  assert (Hd : snd (dispatch cp dp i (round5 action) st l) <> Raise IndexError
               /\ snd (dispatch cp dp i (round5 action) st l)
                  <> Raise AttributeError).
  { assert (Hc : forall st l, snd (account_charge cp st l) <> Raise IndexError
                 /\ snd (account_charge cp st l) <> Raise AttributeError).
    { intros st' l'. unfold account_charge.
      destruct (actual_power l'), (actual_amps l'); split; discriminate. }
    assert (Hdis : forall st l,
               snd (account_discharge dp st l) <> Raise IndexError
               /\ snd (account_discharge dp st l) <> Raise AttributeError).
    { intros st' l'. unfold account_discharge.
      destruct (actual_power l'); [|split; discriminate]. cbv zeta. fields.
      destruct (actual_amps l'); split; discriminate. }
    unfold dispatch. rewrite Hi.
    destruct (Qeq_bool (round5 action) 0) eqn:H0.
    { destruct slot as [ev|]; [|split; discriminate].
      destruct (ev_step _ _ _ ev) as [ev' r]. split; discriminate. }
    destruct slot as [ev|].
    2:{ apply Qeq_bool_neq in H0. now destruct H0; apply Hq. }
    unfold drive, vehicle_at. rewrite Hi.
    destruct (Qlt_bool 0 _).
    { destruct (ev_step _ _ _ ev) as [ev' [power amps']]. apply Hc. }
    destruct (Qlt_bool _ 0); [|split; discriminate].
    cbv zeta. destruct (negb _); [apply Hdis|].
    destruct (ev_step _ _ _ ev) as [ev' [power amps']]. apply Hdis. }
  pose proof (dispatch_frame cp dp i (round5 action) st l) as Hf.
  destruct (dispatch _ _ _ _ _ _) as [st1 [l1|e]]; fields; [|exact Hd].
  destruct Hf as (_ & Hocc & _).
  apply (f_equal (fun o => o !! i)) in Hocc.
  rewrite !occupancy_lookup, Hi in Hocc.
  unfold check_port. destruct (Qlt_bool _ _); [split; discriminate|].
  destruct (verbose _); [|split; discriminate].
  destruct (evs_connected st1 !! i) as [[ev1|]|]; try discriminate;
    [|split; discriminate].
  destruct (actual_power l1), (actual_amps l1); split; discriminate.
Qed.

Lemma port_loop_lookup_safe cp dp acts : forall i st l,
  Forall2 (fun (b : bool) a => b = false -> round5 a == 0)
    (drop i (occupancy (evs_connected st))) acts ->
  snd (port_loop cp dp i acts st l) <> Raise IndexError /\
  snd (port_loop cp dp i acts st l) <> Raise AttributeError.
Proof.
  induction acts as [|a rest IH]; intros i st l Hq; cbn [port_loop].
  - split; discriminate.
  - inversion Hq as [|b a' occ' rest' Hb Hrest Hdrop]; subst.
    symmetry in Hdrop. apply drop_cons_inv in Hdrop as [Hi Hocc'].
    rewrite occupancy_lookup in Hi.
    destruct (evs_connected st !! i) as [slot|] eqn:Hslot; [|discriminate].
    injection Hi as Hbit.
    assert (Hz : slot = None -> round5 a == 0).
    { intros ->. apply Hb. now rewrite <- Hbit. }
    pose proof (port_step_lookup_safe cp dp i a st l slot Hslot Hz) as Hs.
    pose proof (port_step_frame cp dp i a st l) as Hf.
    destruct (port_step _ _ _ _ _ _) as [st1 [l1|e]]; fields; [|exact Hs].
    apply IH. destruct Hf as (_ & -> & _). now rewrite Hocc'.
Qed.

Lemma step_no_lookup_error st actions cp dp :
  ports_inv st ->
  snd (step actions cp dp st) <> Raise IndexError /\
  snd (step actions cp dp st) <> Raise AttributeError.
Proof.
  intros Hports. rewrite step_unfold. cbv zeta. fold (begin_step cp dp st).
  destruct (negb _) eqn:Hlen; [split; discriminate|].
  apply negb_false_iff, Z.eqb_eq in Hlen.
  assert (Hl : length (evs_connected st) = length actions)
    by (unfold ports_inv in Hports; lia).
  rewrite zero_empty_ports_spec by exact Hl.
  pose proof (port_loop_lookup_safe cp dp
                (normalize (zeroed (evs_connected st) actions)) 0%nat
                (begin_step cp dp st) (mkLocals 0 None None)) as Hsafe.
  rewrite drop_0 in Hsafe.
  specialize (Hsafe (normalize_quiet _ _ (zeroed_quiet _ _ Hl))).
  destruct (port_loop _ _ _ _ _ _) as [st1 [l|e]]; fields.
  - destruct (departure_scan _ _ _ _) as [st3 sat]. split; discriminate.
  - destruct Hsafe as [H1 H2]. split; intros [= ->]; [now apply H1|now apply H2].
Qed.

(** On a station whose port array has [n_ports] slots, [step] raises
    neither IndexError nor AttributeError: it does not index past the
    port array, and it does not call a method of a vehicle on an empty
    port, whatever the actions given for the empty ports. *)
Theorem step_lookup_safe st actions cp dp :
  ports_inv st ->
  snd (step actions cp dp st) <> Raise IndexError /\
  snd (step actions cp dp st) <> Raise AttributeError.
Proof. exact (step_no_lookup_error st actions cp dp). Qed.







(** ** Verbose mode *)

Lemma sum_zero (acts : list Q) : Forall (fun a => a == 0) acts -> sum acts == 0.
Proof.
  induction 1 as [|a rest Ha Hrest IH]; [reflexivity|].
  rewrite sum_cons. lra.
Qed.

Lemma normalize_small acts : -1 <= sum acts <= 1 -> normalize acts = acts.
Proof.
  intros [Hlo Hhi]. unfold normalize.
  rewrite (proj2 (Qlt_bool_false _ _) Hhi).
  now rewrite (proj2 (Qlt_bool_false _ _) Hlo).
Qed.

Lemma port_loop_verbose_idle cp dp acts : forall i st l j (ev : EV D),
  verbose (config st) = true ->
  actual_power l = None ->
  current_total_amps st - tolerance <= max_charge_current (config st) ->
  Forall (fun a => a == 0) acts ->
  (i + length acts <= length (evs_connected st))%nat ->
  (i <= j < i + length acts)%nat ->
  evs_connected st !! j = Some (Some ev) ->
  snd (port_loop cp dp i acts st l) = Raise UnboundLocalError.
Proof.
  induction acts as [|a rest IH]; intros i st l j ev Hv Hl Hamps Hall Hlen Hj Hev;
    cbn [length] in *; [lia|].
  apply Forall_cons in Hall as [Ha Hrest].
  cbn [port_loop]. unfold port_step.
  pose proof (round5_zero a Ha) as Hr.
  rewrite (proj2 (in_range_true _)) by lra.
  unfold dispatch. rewrite (proj2 (Qeq_bool_iff _ _) Hr).
  destruct (lookup_lt_is_Some_2 (evs_connected st) i) as [slot Hi]; [lia|].
  rewrite Hi. destruct slot as [ev0|].
  - destruct (ev_step _ _ _ ev0) as [ev0' r]. unfold check_port. fields.
    rewrite (proj2 (Qlt_bool_false _ _) Hamps), Hv.
    rewrite list_lookup_insert_eq by lia. now rewrite Hl.
  - unfold check_port.
    rewrite (proj2 (Qlt_bool_false _ _) Hamps), Hv, Hi.
    apply (IH (S i) st l j ev); try assumption; try lia.
    destruct (Nat.eq_dec i j) as [->|Hne]; [congruence|lia].
Qed.

(** On a verbose station, [step] with all actions zero raises
    UnboundLocalError as soon as one port is occupied: the print after
    the first occupied port reads [actual_power], which only a charging
    or discharging port binds.  (The station has [n_ports] slots and a
    [max_charge_current] of at least -0.0001.) *)
Theorem step_verbose_idle_raises st actions cp dp j (ev : EV D) :
  verbose (config st) = true ->
  ports_inv st ->
  Z.of_nat (length actions) = n_ports (config st) ->
  Forall (fun a => a == 0) actions ->
  - tolerance <= max_charge_current (config st) ->
  evs_connected st !! j = Some (Some ev) ->
  snd (step actions cp dp st) = Raise UnboundLocalError.
Proof.
  intros Hv Hports Hlen Hall Hmax Hev.
  assert (Hl : length (evs_connected st) = length actions)
    by (unfold ports_inv in Hports; lia).
  rewrite step_unfold. cbv zeta. fold (begin_step cp dp st).
  rewrite (proj2 (Z.eqb_eq _ _) Hlen). cbn [negb].
  rewrite zero_empty_ports_spec by exact Hl.
  assert (Hz : Forall (fun a => a == 0) (zeroed (evs_connected st) actions)).
  { apply zeroed_Forall; [reflexivity|].
    intros i a ev' Ha _. rewrite Forall_lookup in Hall. now apply (Hall i). }
  rewrite normalize_small by (rewrite (sum_zero _ Hz); lra).
  assert (Hzl : length (zeroed (evs_connected st) actions) = length actions).
  { unfold zeroed. rewrite length_zip_with. lia. }
  pose proof (port_loop_verbose_idle cp dp
                (zeroed (evs_connected st) actions) 0%nat
                (begin_step cp dp st) (mkLocals 0 None None) j ev) as Hloop.
  assert (Hraise : snd (port_loop cp dp 0 (zeroed (evs_connected st) actions)
                          (begin_step cp dp st) (mkLocals 0 None None))
                   = Raise UnboundLocalError).
  { apply Hloop.
    - exact Hv.
    - reflexivity.
    - unfold begin_step. fields. unfold tolerance in *. lra.
    - exact Hz.
    - unfold begin_step. fields. lia.
    - apply lookup_lt_Some in Hev. lia.
    - exact Hev. }
  destruct (port_loop _ _ _ _ _ _) as [st1 r]. fields.
  now rewrite Hraise.
Qed.


(** ** An unoccupied station *)

Lemma port_loop_empty cp dp acts : forall i st l,
  Forall (fun a => a == 0) acts ->
  current_total_amps st - tolerance <= max_charge_current (config st) ->
  (forall j, (i <= j < i + length acts)%nat ->
             evs_connected st !! j = Some None) ->
  port_loop cp dp i acts st l = (st, Ok l).
Proof.
  induction acts as [|a rest IH]; intros i st l Hall Hamps Hempty;
    cbn [port_loop]; [reflexivity|].
  apply Forall_cons in Hall as [Ha Hrest]. cbn [length] in Hempty.
  unfold port_step.
  pose proof (round5_zero a Ha) as Hr.
  rewrite (proj2 (in_range_true _)) by lra.
  unfold dispatch. rewrite (proj2 (Qeq_bool_iff _ _) Hr).
  rewrite (Hempty i) by lia.
  unfold check_port. rewrite (proj2 (Qlt_bool_false _ _) Hamps).
  rewrite (Hempty i) by lia.
  assert (Hnext : port_loop cp dp (S i) rest st l = (st, Ok l)).
  { apply IH; try assumption. intros j Hj. apply Hempty. lia. }
  destruct (verbose _); exact Hnext.
Qed.

Lemma departure_scan_empty slots : forall i st sat,
  Forall (fun slot => slot = None) slots ->
  departure_scan i slots st sat = (st, sat).
Proof.
  induction slots as [|slot rest IH]; intros i st sat Hall;
    [reflexivity|].
  apply Forall_cons in Hall as [-> Hrest]. cbn [departure_scan].
  now apply IH.
Qed.

(** On a station with no vehicle (as after [__init__] or [reset]), with a
    [max_charge_current] of at least -0.0001, [step] returns for every
    list of [n_ports] actions: the profit is 0, no vehicle has departed,
    every action is counted as invalid and replaced by 0, and only the
    prices, the two aggregates (both 0) and the step counter change. *)
Theorem step_empty_station st actions cp dp :
  Forall (fun slot => slot = None) (evs_connected st) ->
  ports_inv st ->
  Z.of_nat (length actions) = n_ports (config st) ->
  - tolerance <= max_charge_current (config st) ->
  step actions cp dp st =
    (set_current_step (current_step st + 1)%Z
       (set_total_profits (total_profits st + 0) (begin_step cp dp st)),
     replicate (length actions) 0,
     Ok (0, [], n_ports (config st))).
Proof.
  intros Hnone Hports Hlen Hmax.
  assert (Hl : length (evs_connected st) = length actions)
    by (unfold ports_inv in Hports; lia).
  rewrite step_unfold. cbv zeta. fold (begin_step cp dp st).
  rewrite (proj2 (Z.eqb_eq _ _) Hlen). cbn [negb].
  rewrite zero_empty_ports_spec by exact Hl.
  assert (Hz : zeroed (evs_connected st) actions
               = replicate (length actions) 0).
  { clear -Hnone Hl. revert actions Hl.
    induction (evs_connected st) as [|slot rest IH]; intros [|a actions];
      try discriminate; [reflexivity|].
    cbn [length]. intros Hl.
    apply Forall_cons in Hnone as [-> Hrest].
    unfold zeroed in *. cbn [zip_with replicate]. f_equal.
    apply IH; [exact Hrest|lia]. }
  assert (Hc : count_empty (evs_connected st) = n_ports (config st)).
  { rewrite <- Hlen, <- Hl. clear -Hnone.
    induction (evs_connected st) as [|slot rest IH]; [reflexivity|].
    apply Forall_cons in Hnone as [-> Hrest].
    cbn [count_empty length]. rewrite (IH Hrest). lia. }
  rewrite Hz, Hc.
  assert (Hzero : Forall (fun a => a == 0) (replicate (length actions) 0)).
  { apply Forall_replicate. reflexivity. }
  rewrite normalize_small by (rewrite (sum_zero _ Hzero); lra).
  rewrite port_loop_empty.
  - fields.
    rewrite departure_scan_empty by exact Hnone. reflexivity.
  - exact Hzero.
  - unfold begin_step. fields. unfold tolerance in *. lra.
  - intros j Hj. rewrite length_replicate in Hj.
    change (evs_connected (begin_step cp dp st)) with (evs_connected st).
    destruct (lookup_lt_is_Some_2 (evs_connected st) j) as [slot Hs];
      [lia|].
    rewrite Hs. f_equal. rewrite Forall_lookup in Hnone.
    exact (Hnone j slot Hs).
Qed.


(** ** The length assertion *)

Lemma port_loop_no_assertion cp dp acts a : forall i st l,
  a <> ActionRange ->
  snd (port_loop cp dp i acts st l) <> Raise (AssertionError a).
Proof.
  induction acts as [|x rest IH]; intros i st l Ha; cbn [port_loop];
    [discriminate|].
  destruct (port_step cp dp i x st l) as [st1 [l1|e]] eqn:Hs.
  - now apply IH.
  - fields. intros [= ->]. revert Hs. unfold port_step.
    destruct (negb _); [congruence|].
    pose proof (dispatch_no_assertion cp dp i (round5 x) st l a) as Hd.
    destruct (dispatch _ _ _ _ _ _) as [st2 [l2|e2]]; fields.
    + intros Hc. apply (check_port_no_assertion i st2 l2 a).
      now rewrite Hc.
    + congruence.
Qed.

(** [step] fails on its length assertion exactly when the number of
    actions differs from [n_ports]; the call then leaves the caller's
    list as it was, but has already set the two aggregates to 0 and
    recorded the two prices. *)
Theorem step_length_assertion st actions cp dp :
  (snd (step actions cp dp st) = Raise (AssertionError ActionsLength)
   <-> Z.of_nat (length actions) <> n_ports (config st)) /\
  (Z.of_nat (length actions) <> n_ports (config st) ->
   step actions cp dp st =
     (begin_step cp dp st, actions, Raise (AssertionError ActionsLength))).
Proof.
  rewrite step_unfold. cbv zeta. fold (begin_step cp dp st).
  destruct (negb _) eqn:Hlen.
  - apply negb_true_iff, Z.eqb_neq in Hlen. repeat split; auto.
  - apply negb_false_iff, Z.eqb_eq in Hlen. split; [|congruence].
    split; [|congruence]. intros Hraise. exfalso. revert Hraise.
    destruct (zero_empty_ports _ _ _ _) as [zeroed' [n|e]] eqn:Hz.
    + pose proof (port_loop_no_assertion cp dp (normalize zeroed')
                    ActionsLength 0%nat (begin_step cp dp st)
                    (mkLocals 0 None None)) as Hloop.
      destruct (port_loop _ _ _ _ _ _) as [st1 [l|e]]; fields.
      * destruct (departure_scan _ _ _ _) as [st3 sat]. discriminate.
      * intros [= ->]. apply Hloop; [discriminate|reflexivity].
    + fields. intros [= ->]. revert Hz. clear.
      generalize (seq 0 (length actions)) as idx.
      generalize 0%Z as k. revert actions.
      intros actions k idx. revert actions k.
      induction idx as [|i idx IH]; intros actions k;
        cbn [zero_empty_ports]; [discriminate|].
      destruct (evs_connected st !! i) as [[ev|]|]; try apply IH.
      discriminate.
Qed.

(** ** The charging branch *)

(** For an occupied port whose rounded action is in (0, 1], the current
    requested from the vehicle is action * max_charge_current when that
    is at least [min_charge_current], and 0 when it is below; it is at
    most [max_charge_current] when that is not negative.  The vehicle steps with that current, the voltage and
    the charger type; the profit grows by |actual power| * charge_price,
    [total_energy_charged] by |actual power|, [current_power_output] by
    the actual power and [current_total_amps] by the actual current;
    then the over-current check runs. *)
Theorem port_step_charge cp dp i action st l (ev : EV D) :
  evs_connected st !! i = Some (Some ev) ->
  0 < round5 action ->
  round5 action <= 1 ->
  let cfg := config st in
  let amps := charge_amps cfg (round5 action) in
  let r := ev_step amps (Some (voltage cfg)) (Some (charger_type cfg)) ev in
  let power := fst (snd r) in
  let st1 :=
    set_current_total_amps (current_total_amps st + snd (snd r))
      (set_current_power_output (current_power_output st + power)
         (set_total_energy_charged (total_energy_charged st + Qabs power)
            (set_evs_connected (<[i := Some (fst r)]> (evs_connected st))
               st))) in
  let l1 := mkLocals (profit l + Qabs power * cp) (Some power)
              (Some (snd (snd r))) in
  (round5 action * max_charge_current cfg < min_charge_current cfg ->
   amps = 0) /\
  (min_charge_current cfg <= round5 action * max_charge_current cfg ->
   amps = round5 action * max_charge_current cfg) /\
  (0 <= max_charge_current cfg -> amps <= max_charge_current cfg) /\
  dispatch cp dp i (round5 action) st l = (st1, Ok l1) /\
  port_step cp dp i action st l = check_port i st1 l1.
Proof.
  intros Hi Hpos Hhi cfg amps r power st1 l1.
  assert (Hd : dispatch cp dp i (round5 action) st l = (st1, Ok l1)).
  { unfold dispatch.
    assert (H0 : Qeq_bool (round5 action) 0 = false).
    { destruct (Qeq_bool _ _) eqn:E; [|reflexivity].
      apply Qeq_bool_iff in E. lra. }
    rewrite H0, (proj2 (Qlt_bool_true _ _) Hpos).
    unfold drive, vehicle_at. rewrite Hi.
    subst st1 l1 power r amps cfg.
    destruct (ev_step _ _ _ ev) as [ev' [p a']]. reflexivity. }
  split; [|split; [|split; [|split]]].
  - intros Hlt. subst amps. unfold charge_amps. cbv zeta.
    now rewrite (proj2 (Qlt_bool_true _ _) Hlt).
  - intros Hge. subst amps. unfold charge_amps. cbv zeta.
    now rewrite (proj2 (Qlt_bool_false _ _) Hge).
  - intros Hmax. subst amps. unfold charge_amps. cbv zeta.
    destruct (Qlt_bool _ _); [exact Hmax|]. fold cfg. nra.
  - exact Hd.
  - unfold port_step.
    rewrite (proj2 (in_range_true _)) by (split; lra).
    now rewrite Hd.
Qed.


(** ** Satisfaction statistics *)

Lemma step_ok_scores actions cp dp st st' actions' p sat n :
  step actions cp dp st = (st', actions', Ok (p, sat, n)) ->
  exists slots1,
    sat = departing_scores (current_step st) slots1 /\
    total_evs_served st' = (total_evs_served st + Z.of_nat (length sat))%Z /\
    n_evs_connected st' = (n_evs_connected st - Z.of_nat (length sat))%Z /\
    total_user_satisfaction st' == total_user_satisfaction st + sum sat.
Proof.
  intros Hstep.
  apply step_ok_inv in Hstep
    as (zeroed' & st1 & l & st3 & _ & _ & Hloop & _ & Hscan & -> & _).
  pose proof (port_loop_frame cp dp (normalize zeroed') 0%nat
                (begin_step cp dp st) (mkLocals 0 None None)) as Hf.
  rewrite Hloop in Hf. fields.
  destruct Hf as (_ & _ & Hn & Ht & _ & _ & _ & Hserved & Hsat & _).
  match type of Hscan with departure_scan 0 ?s ?t ?u = _ =>
    pose proof (departure_scan_spec s 0%nat t u (drop_0 _)) as Hspec
  end.
  cbv zeta in Hspec. rewrite Hscan in Hspec. fields.
  destruct Hspec as (_ & Hsats & E3 & E4 & E5).
  cbn [app] in Hsats. exists (evs_connected st1).
  rewrite Ht in Hsats. split; [exact Hsats|].
  rewrite <- Ht in Hsats. subst sat.
  rewrite E3, E4, E5, Hn, Hserved, Hsat. repeat split.
Qed.

Lemma departing_scores_range t slots :
  (forall ev : EV D, 0 <= ev_get_user_satisfaction ev <= 1) ->
  Forall (fun s => 0 <= s <= 1) (departing_scores t slots).
Proof.
  intros Hsat. induction slots as [|[ev|] rest IH];
    cbn [departing_scores]; [constructor| |exact IH].
  destruct (ev_is_departing t ev); [|exact IH].
  constructor; [apply Hsat|exact IH].
Qed.

Lemma sum_unit_range (scores : list Q) :
  Forall (fun s => 0 <= s <= 1) scores ->
  0 <= sum scores <= inject_Z (Z.of_nat (length scores)).
Proof.
  induction 1 as [|s rest Hs Hrest IH].
  - unfold sum. cbn [fold_left length]. change (inject_Z (Z.of_nat 0)) with 0.
    lra.
  - pose proof (sum_cons s rest) as E. cbn [length].
    rewrite Nat2Z.inj_succ, <- Z.add_1_r, inject_Z_plus.
    change (inject_Z 1) with 1. lra.
Qed.

(** When every vehicle reports a satisfaction in [0, 1], the station's
    satisfaction statistics stay consistent: after [__init__] and
    [reset], and through [step] and [spawn_ev], [total_evs_served] is not
    negative and [total_user_satisfaction] lies between 0 and
    [total_evs_served]; hence [get_avg_user_satisfaction] is in [0, 1]. *)
Theorem satisfaction_invariant :
  (forall ev : EV D, 0 <= ev_get_user_satisfaction ev <= 1) ->
  (forall cfg, satisfaction_inv (@init D cfg)) /\
  (forall actions cp dp st,
     satisfaction_inv st ->
     satisfaction_inv (fst (fst (step actions cp dp st)))) /\
  (forall ev st, satisfaction_inv st ->
                 satisfaction_inv (fst (spawn_ev ev st))) /\
  (forall st, satisfaction_inv (reset st)) /\
  (forall st, satisfaction_inv st ->
              0 <= get_avg_user_satisfaction st <= 1).
Proof.
  intros Hsat. unfold satisfaction_inv.
  split; [|split; [|split; [|split]]].
  - intros cfg. cbn [init total_evs_served total_user_satisfaction].
    change (inject_Z 0) with 0. repeat split; try lia; lra.
  - intros actions cp dp st (Hserved & Hlo & Hhi).
    destruct (step actions cp dp st) as [[st' actions'] [[[p sat] n]|e]]
      eqn:Hstep; fields.
    + apply step_ok_scores in Hstep as (slots1 & Hsc & E1 & _ & E3).
      pose proof (departing_scores_range (current_step st) slots1 Hsat)
        as Hrange.
      rewrite <- Hsc in Hrange. apply sum_unit_range in Hrange.
      rewrite E1, E3, inject_Z_plus. split; [lia|lra].
    + pose proof (step_frame_cases actions cp dp st) as Hf.
      cbv zeta in Hf. rewrite Hstep in Hf. fields.
      destruct Hf as (_ & _ & _ & _ & _ & _ & _ & _ & _ & F1 & F2 & _).
      rewrite F1, F2. repeat split; assumption.
  - intros ev st Hinv. unfold spawn_ev.
    destruct (negb _); [exact Hinv|].
    destruct (index_None _); exact Hinv.
  - intros st. unfold reset. fields.
    change (inject_Z 0) with 0. repeat split; try lia; lra.
  - intros st (Hserved & Hlo & Hhi). unfold get_avg_user_satisfaction.
    destruct (total_evs_served st =? 0)%Z eqn:Hz; [lra|].
    apply Z.eqb_neq in Hz.
    assert (Hpos : 0 < inject_Z (total_evs_served st)).
    { change 0 with (inject_Z 0). rewrite <- Zlt_Qlt. lia. }
    split.
    + apply Qle_shift_div_l; [exact Hpos|lra].
    + apply Qle_shift_div_r; [exact Hpos|lra].
Qed.

(** ** The state vector *)

Lemma concat_pairs_lookup {A : Type} (f : A -> list Q) (xs : list A) :
  (forall x, length (f x) = 2%nat) ->
  length (concat (map f xs)) = (2 * length xs)%nat /\
  forall i x k, xs !! i = Some x -> (k < 2)%nat ->
                concat (map f xs) !! (2 * i + k)%nat = f x !! k.
Proof.
  intros Hf. induction xs as [|y rest [IHlen IH]].
  - split; [reflexivity|]. intros i x k Hi. discriminate.
  - split.
    + cbn [map concat length]. rewrite length_app, Hf, IHlen. lia.
    + intros [|i] x k Hi Hk; cbn [map concat].
      * injection Hi as ->. rewrite lookup_app_l by (rewrite Hf; exact Hk).
        reflexivity.
      * change ((y :: rest) !! S i) with (rest !! i) in Hi.
        rewrite lookup_app_r by (rewrite Hf; lia).
        rewrite Hf. replace (2 * S i + k - 2)%nat with (2 * i + k)%nat by lia.
        now apply IH.
Qed.

(** When the vehicles' [get_state] returns two numbers, the state vector
    has 2 + 2 * (number of slots) entries: the two prices, then for port
    [i] the entries 2 + 2i and 3 + 2i, which are 0 for an empty port and
    the vehicle's two numbers for an occupied one. *)
Theorem get_state_shape st :
  (forall t (ev : EV D), length (ev_get_state t ev) = 2%nat) ->
  length (get_state st) = (2 + 2 * length (evs_connected st))%nat /\
  get_state st !! 0%nat = Some (current_charge_price st) /\
  get_state st !! 1%nat = Some (current_discharge_price st) /\
  (forall i, evs_connected st !! i = Some None ->
     get_state st !! (2 + 2 * i)%nat = Some 0 /\
     get_state st !! (3 + 2 * i)%nat = Some 0) /\
  (forall i ev k, evs_connected st !! i = Some (Some ev) -> (k < 2)%nat ->
     get_state st !! (2 + 2 * i + k)%nat
     = ev_get_state (current_step st) ev !! k).
Proof.
  intros Hlen. unfold get_state.
  set (f := fun slot : option (EV D) =>
              match slot with
              | Some ev => ev_get_state (current_step st) ev
              | None => [0; 0]
              end).
  assert (Hf : forall x, length (f x) = 2%nat).
  { intros [ev|]; [apply Hlen|reflexivity]. }
  destruct (concat_pairs_lookup f (evs_connected st) Hf) as [Hl Hlook].
  assert (Hskip : forall m,
            ([current_charge_price st; current_discharge_price st]
             ++ concat (map f (evs_connected st))) !! S (S m)
            = concat (map f (evs_connected st)) !! m)
    by reflexivity.
  split; [|split; [|split; [|split]]].
  - cbn [app length]. rewrite Hl. reflexivity.
  - reflexivity.
  - reflexivity.
  - intros i Hi. split.
    + replace (2 + 2 * i)%nat with (S (S (2 * i + 0))) by lia.
      rewrite (Hskip (2 * i + 0)%nat).
      now rewrite (Hlook i None 0%nat Hi) by lia.
    + replace (3 + 2 * i)%nat with (S (S (2 * i + 1))) by lia.
      rewrite (Hskip (2 * i + 1)%nat).
      now rewrite (Hlook i None 1%nat Hi) by lia.
  - intros i ev k Hi Hk.
    replace (2 + 2 * i + k)%nat with (S (S (2 * i + k))) by lia.
    rewrite (Hskip (2 * i + k)%nat).
    now rewrite (Hlook i (Some ev) k Hi Hk).
Qed.


(** ** Arrivals *)

Lemma spawn_ev_ok (ev : EV D) st :
  occupancy_inv st -> ports_inv st ->
  (n_evs_connected st < n_ports (config st))%Z ->
  exists index,
    evs_connected st !! index = Some None /\
    snd (spawn_ev ev st) = Ok index.
Proof.
  unfold occupancy_inv, ports_inv. intros Hocc Hports Hlt.
  unfold spawn_ev. rewrite (proj2 (Z.ltb_lt _ _) Hlt). cbn [negb].
  destruct (index_None (evs_connected st)) as [index|] eqn:Hidx.
  - apply index_None_Some in Hidx as [Hempty _]. now exists index.
  - apply index_None_None in Hidx. lia.
Qed.

(** A departure makes room: when [step] returns a non-empty list of
    satisfaction values on a station that satisfies the occupancy
    invariant and has [n_ports] slots, the next [spawn_ev] succeeds, on a
    port that is empty after the step. *)
Theorem step_departure_frees_port (ev : EV D) actions cp dp st st' actions'
    p sat n :
  occupancy_inv st ->
  ports_inv st ->
  step actions cp dp st = (st', actions', Ok (p, sat, n)) ->
  sat <> [] ->
  exists index,
    evs_connected st' !! index = Some None /\
    snd (spawn_ev ev st') = Ok index.
Proof.
  intros Hocc Hports Hstep Hsat.
  pose proof (step_occupancy_inv actions cp dp st Hocc) as Hocc'.
  pose proof (proj1 (proj2 ports_inv_preserved) actions cp dp st Hports)
    as Hports'.
  pose proof (step_frame_cases actions cp dp st) as Hf. cbv zeta in Hf.
  rewrite Hstep in Hocc', Hports', Hf. fields.
  destruct Hf as (Hcfg & _).
  apply step_ok_scores in Hstep as (_ & _ & _ & Hn & _).
  apply spawn_ev_ok; [exact Hocc'|exact Hports'|].
  rewrite Hn, Hcfg.
  pose proof (count_occupied_bounds (evs_connected st)) as Hb.
  unfold occupancy_inv, ports_inv in Hocc, Hports.
  destruct sat as [|s sat]; [congruence|]. cbn [length]. lia.
Qed.

Lemma index_None_prefix (occ rest : list (option (EV D))) :
  Forall (fun slot => slot <> None) occ ->
  index_None (occ ++ None :: rest) = Some (length occ).
Proof.
  induction 1 as [|slot occ Hslot Hocc IH]; [reflexivity|].
  cbn [app index_None length]. destruct slot as [ev|]; [|congruence].
  now rewrite IH.
Qed.

Lemma spawn_all_from (evs : list (EV D)) : forall occ m st,
  evs_connected st = occ ++ replicate m None ->
  Forall (fun slot => slot <> None) occ ->
  n_evs_connected st = Z.of_nat (length occ) ->
  n_ports (config st) = Z.of_nat (length occ + m) ->
  (length evs <= m)%nat ->
  snd (spawn_all evs st) = map Ok (seq (length occ) (length evs)) /\
  evs_connected (fst (spawn_all evs st))
    = occ ++ imap (fun i ev => Some (mkEV (length occ + i) (ev_data ev))) evs
          ++ replicate (m - length evs) None /\
  n_evs_connected (fst (spawn_all evs st))
    = Z.of_nat (length occ + length evs) /\
  config (fst (spawn_all evs st)) = config st.
Proof.
  induction evs as [|ev rest IH]; intros occ m st Hslots Hocc Hn Hports Hlen.
  - cbn [spawn_all fst snd length seq map imap app].
    rewrite Nat.sub_0_r, Nat.add_0_r. repeat split; assumption.
  - cbn [length] in Hlen. destruct m as [|m]; [lia|].
    set (ev' := mkEV (length occ) (ev_data ev)).
    set (st1 := set_n_evs_connected (n_evs_connected st + 1)%Z
                  (set_evs_connected
                     (<[length occ := Some ev']> (evs_connected st)) st)).
    assert (Hsp : spawn_ev ev st = (st1, Ok (length occ))).
    { unfold spawn_ev. rewrite (proj2 (Z.ltb_lt _ _)) by lia. cbn [negb].
      rewrite Hslots at 1. cbn [replicate].
      now rewrite (index_None_prefix occ _ Hocc). }
    cbn [spawn_all]. rewrite Hsp.
    assert (Hslots1 : evs_connected st1
                      = (occ ++ [Some ev']) ++ replicate m None).
    { subst st1. fields. rewrite Hslots. cbn [replicate].
      rewrite insert_app_r_alt by lia. rewrite Nat.sub_diag.
      cbn. now rewrite <- app_assoc. }
    assert (Hocc1 : Forall (fun slot : option (EV D) => slot <> None)
                      (occ ++ [Some ev'])).
    { apply Forall_app. split; [exact Hocc|]. now repeat constructor. }
    specialize (IH (occ ++ [Some ev']) m st1 Hslots1 Hocc1).
    rewrite length_app in IH. cbn [length] in IH.
    destruct IH as (R1 & R2 & R3 & R4).
    { subst st1. fields. lia. }
    { subst st1. fields. lia. }
    { lia. }
    destruct (spawn_all rest st1) as [st2 rs]. fields.
    rewrite R1, R2, R3, R4. cbn [length seq map imap].
    replace (length occ + 1)%nat with (S (length occ)) by lia.
    repeat split.
    + rewrite <- app_assoc. cbn [app]. rewrite Nat.add_0_r. fold ev'.
      do 2 f_equal. cbn [Nat.sub]. f_equal.
      apply imap_ext. intros i x _. cbn. do 2 f_equal. lia.
    + lia.
Qed.

(** Vehicles arriving at a station fresh from [__init__], no more of them
    than ports: the calls of [spawn_ev] return the ports 0, 1, 2, ... in
    order, the vehicles sit in these ports with [id] equal to the port,
    the ports after them are empty, and [n_evs_connected] is their
    number. *)
Theorem spawn_all_fresh cfg (evs : list (EV D)) :
  (Z.of_nat (length evs) <= n_ports cfg)%Z ->
  snd (spawn_all evs (init cfg)) = map Ok (seq 0 (length evs)) /\
  evs_connected (fst (spawn_all evs (init cfg)))
    = imap (fun i ev => Some (mkEV i (ev_data ev))) evs
      ++ replicate (Z.to_nat (n_ports cfg) - length evs) None /\
  n_evs_connected (fst (spawn_all evs (init cfg)))
    = Z.of_nat (length evs).
Proof.
  intros Hlen.
  destruct (spawn_all_from evs [] (Z.to_nat (n_ports cfg)) (init cfg))
    as (R1 & R2 & R3 & _); try reflexivity.
  - constructor.
  - cbn. lia.
  - lia.
  - cbn [length app Nat.add] in *. repeat split; assumption.
Qed.


(** ** The count of invalid actions *)

Lemma count_empty_occupied slots :
  (count_empty slots + count_occupied slots)%Z = Z.of_nat (length slots).
Proof.
  induction slots as [|[ev|] rest IH];
    cbn [count_empty count_occupied length]; lia.
Qed.

(** On a station that satisfies the occupancy invariant and has
    [n_ports] slots, the count of invalid actions [step] returns is
    [n_ports] minus the number of connected vehicles at the call. *)
Theorem step_invalid_count st actions cp dp st' actions' p sat n :
  occupancy_inv st ->
  ports_inv st ->
  step actions cp dp st = (st', actions', Ok (p, sat, n)) ->
  n = (n_ports (config st) - n_evs_connected st)%Z.
Proof.
  unfold occupancy_inv, ports_inv. intros Hocc Hports Hstep.
  apply step_ok_inv in Hstep
    as (zeroed' & st1 & l & st3 & Hlen & Hz & _).
  rewrite zero_empty_ports_spec in Hz by lia.
  injection Hz as _ <-.
  pose proof (count_empty_occupied (evs_connected st)). lia.
Qed.


(** ** C9: reset and the prices *)

(** C9.  [reset] does not restore the two prices: after any call of
    [step] at prices [cp] and [dp], whatever its outcome, a [reset]
    leaves [current_charge_price] at [cp] and [current_discharge_price]
    at [dp], and [get_state] starts with them, where the station fresh
    from [__init__] has both at 0; every other entry is 0 in both. *)
Theorem reset_stale_prices st actions cp dp :
  let st' := reset (fst (fst (step actions cp dp st))) in
  let zeros := replicate (2 * Z.to_nat (n_ports (config st))) 0 in
  current_charge_price st' = cp /\
  current_discharge_price st' = dp /\
  get_state st' = [cp; dp] ++ zeros /\
  current_charge_price (@init D (config st)) = 0 /\
  current_discharge_price (@init D (config st)) = 0 /\
  get_state (@init D (config st)) = [0; 0] ++ zeros.
Proof.
  cbv zeta.
  pose proof (step_frame_cases actions cp dp st) as Hf. cbv zeta in Hf.
  destruct Hf as (Hcfg & Hcp & Hdp & _).
  pose proof (reset_effect (fst (fst (step actions cp dp st)))) as Hr.
  cbv zeta in Hr.
  destruct Hr as (_ & R1 & R2 & _ & _ & _ & _ & _ & _ & _ & _ & _ & _ & _ & R3).
  rewrite R1, R2, R3, Hcp, Hdp, Hcfg.
  repeat split. unfold get_state. cbn [init evs_connected
    current_charge_price current_discharge_price current_step].
  cbn [app]. do 2 f_equal. apply get_state_empty.
Qed.

End StepFacts.


(** * Scenarios

    The statements above at stations of the scenario vehicle, and the
    inputs on which the code departs from its description. *)

Import Scenario.

(** Two ports, both occupied, on a bidirectional station with the default
    limits. *)
Lemma step_over_current_guard_witness :
  let st := station (default_config 2 true) 2 in
  let st' := fst (fst (step [1 # 2; 1 # 2] 3 2 st)) in
  (1 <= n_ports (config st))%Z /\
  current_total_amps st' - tolerance <= max_charge_current (config st').
Proof.
  cbv zeta. split; [vm_compute; discriminate|].
  eapply (proj2 (proj2 step_over_current_guard)
            [1 # 2; 1 # 2] 3 2 (station (default_config 2 true) 2)).
  - vm_compute. discriminate.
  - vm_compute. reflexivity.
Defined.

(** The scenario of C2: one port, occupied, not bidirectional, action
    -0.5. *)
Lemma step_discharge_one_way_raises_witness :
  snd (step [- (1 # 2)] 1 1 (station (default_config 1 false) 1))
  = Raise UnboundLocalError.
Proof.
  apply (step_discharge_one_way_raises
           (station (default_config 1 false) 1) (mkEV 0 (mkCar [] 100)));
    reflexivity.
Defined.

(** With two ports on such a station, the discharging port adds the
    current of the charging port a second time: 16 A delivered, 32 A
    recorded. *)
Example step_discharge_one_way_stale :
  let res := step [1 # 2; - (1 # 5)] 1 1 (station (default_config 2 false) 2) in
  current_total_amps (fst (fst res)) == 32 /\
  (exists ev0 ev1,
     evs_connected (fst (fst res)) = [Some ev0; Some ev1] /\
     Forall2 Qeq (requests (ev_data ev0)) [16] /\
     requests (ev_data ev1) = []).
Proof.
  cbv zeta. split; [vm_compute; reflexivity|].
  eexists _, _. split; [vm_compute; reflexivity|].
  split; [|reflexivity]. constructor; [vm_compute; reflexivity|constructor].
Qed.


#[local] Set Warnings "-inexact-float".


(** C4 as stated fails: two occupied ports with actions 2 and -1.5 sum to
    0.5, so nothing is normalised, the first action rounds to 2 and the
    range assertion fails. *)
Lemma step_action_range_counterexample :
  let st := station (default_config 2 true) 2 in
  let actions := [2; - (3 # 2)] in
  snd (step actions 1 1 st) = Raise (AssertionError ActionRange) /\
  ~ Forall (fun a => -1 <= round5 a <= 1)
      (normalize (zeroed (evs_connected st) actions)).
Proof.
  cbv zeta. split; [vm_compute; reflexivity|].
  assert (E : normalize
                (zeroed (evs_connected (station (default_config 2 true) 2))
                   [2; - (3 # 2)]) = [2; - (3 # 2)])
    by (vm_compute; reflexivity).
  rewrite E. intros Hall. apply Forall_cons in Hall as [[_ Hhi] _].
  vm_compute in Hhi. now apply Hhi.
Qed.

(** Actions 5 and 7 on two occupied ports: both non-negative, far above
    1, and normalised into range. *)
Lemma step_action_range_witness :
  let st := station (default_config 2 true) 2 in
  ports_inv st /\
  Z.of_nat (length [5; 7]) = n_ports (config st) /\
  snd (step [5; 7] 3 2 st) <> Raise (AssertionError ActionRange).
Proof.
  cbv zeta.
  assert (Hp : ports_inv (station (default_config 2 true) 2))
    by (vm_compute; reflexivity).
  assert (Hl : Z.of_nat (length [5; 7])
               = n_ports (config (station (default_config 2 true) 2)))
    by reflexivity.
  split; [exact Hp|]. split; [exact Hl|].
  apply (step_action_range _ [5; 7] 3 2 Hp Hl).
  right; left. intros [|[|i]] a ev Ha _; cbn in Ha;
    try discriminate Ha; injection Ha as <-; vm_compute; discriminate.
Defined.

(** C5 as stated fails: with the default limits (32 A, -8 A) the action -1
    requests -32 A from the vehicle, four times |min_discharge_current|. *)
Lemma port_step_discharge_counterexample :
  let cfg := default_config 1 true in
  let st' := fst (fst (step [-1] 1 1 (station cfg 1))) in
  (exists ev x,
     evs_connected st' = [Some ev] /\
     requests (ev_data ev) = [x] /\
     Qabs (min_discharge_current cfg) < Qabs x) /\
  ~ Qabs (discharge_amps cfg (round5 (-1)))
    <= Qabs (min_discharge_current cfg).
Proof.
  cbv zeta. split.
  - eexists _, _. split; [vm_compute; reflexivity|].
    split; [reflexivity|]. vm_compute. reflexivity.
  - intros Hle. vm_compute in Hle. now apply Hle.
Qed.

Lemma port_step_discharge_witness :
  let st := station (default_config 1 true) 1 in
  let action := - (1 # 10) in
  bi_directional (config st) = true /\
  evs_connected st !! 0%nat = Some (Some (mkEV 0 (mkCar [] 100))) /\
  -1 <= round5 action /\
  round5 action < 0 /\
  discharge_amps (config st) (round5 action)
  <= min_discharge_current (config st).
Proof.
  cbv zeta.
  assert (H1 : bi_directional
                 (config (station (default_config 1 true) 1)) = true)
    by reflexivity.
  assert (H2 : evs_connected (station (default_config 1 true) 1) !! 0%nat
               = Some (Some (mkEV 0 (mkCar [] 100)))) by reflexivity.
  assert (H3 : -1 <= round5 (- (1 # 10))) by (vm_compute; discriminate).
  assert (H4 : round5 (- (1 # 10)) < 0) by (vm_compute; reflexivity).
  repeat (split; [assumption|]).
  exact (proj1 (proj2 (port_step_discharge 1 1 0%nat (- (1 # 10)) _
                         (mkLocals 0 None None) _ H1 H2 H3 H4))).
Defined.

(** Two ports, the first occupied: the action 7 for the empty port is
    replaced by 0 and counted. *)
Lemma step_invalid_actions_witness :
  let st := station (default_config 2 true) 1 in
  ports_inv st /\
  Z.of_nat (length [5; 7]) = n_ports (config st) /\
  snd (fst (step [5; 7] 3 2 st)) !! 1%nat = Some 0 /\
  exists profit sat,
    snd (step [5; 7] 3 2 st) = Ok (profit, sat, 1%Z).
Proof.
  cbv zeta.
  assert (Hp : ports_inv (station (default_config 2 true) 1))
    by (vm_compute; reflexivity).
  assert (Hl : Z.of_nat (length [5; 7])
               = n_ports (config (station (default_config 2 true) 1)))
    by reflexivity.
  destruct (step_invalid_actions _ [5; 7] 3 2 Hp Hl)
    as (_ & _ & _ & Hzero & _ & Hcount).
  split; [exact Hp|]. split; [exact Hl|]. split.
  - apply Hzero. reflexivity.
  - destruct (step [5; 7] 3 2 (station (default_config 2 true) 1))
      as [[st' actions'] [[[profit sat] n]|e]] eqn:Hstep.
    + exists profit, sat. cbn [snd].
      now rewrite (Hcount _ _ _ _ _ eq_refl).
    + vm_compute in Hstep. discriminate Hstep.
Defined.

(** Two ports, the first occupied: the vehicle goes to port 1; on the
    full station the assertion fails. *)
Lemma spawn_ev_spec_witness :
  let st := station (default_config 2 true) 1 in
  occupancy_inv st /\
  ports_inv st /\
  (n_evs_connected st < n_ports (config st))%Z /\
  exists index,
    evs_connected st !! index = Some None /\
    snd (spawn_ev (new_car 7) st) = Ok index /\
    evs_connected (fst (spawn_ev (new_car 7) st)) !! index
    = Some (Some (mkEV index (mkCar [] 7))).
Proof.
  cbv zeta.
  assert (Ho : occupancy_inv (station (default_config 2 true) 1))
    by (vm_compute; reflexivity).
  assert (Hp : ports_inv (station (default_config 2 true) 1))
    by (vm_compute; reflexivity).
  assert (Hlt : (n_evs_connected (station (default_config 2 true) 1)
                 < n_ports (config (station (default_config 2 true) 1)))%Z)
    by (vm_compute; reflexivity).
  repeat (split; [assumption|]).
  destruct (proj1 (spawn_ev_spec (new_car 7) _ Ho Hp) Hlt)
    as (index & Hempty & _ & Heq & Hslot & _).
  exists index. split; [exact Hempty|]. split; [|exact Hslot].
  now rewrite Heq.
Defined.

(** A vehicle that leaves at step 0: the departure scan of the first step
    frees its port and the counter follows. *)
Lemma occupancy_invariant_witness :
  let st := fst (spawn_ev (new_car 0) (init (default_config 2 true))) in
  occupancy_inv st /\
  occupancy_inv (fst (fst (step [1 # 2; 0] 3 2 st))) /\
  n_evs_connected (fst (fst (step [1 # 2; 0] 3 2 st))) = 0%Z.
Proof.
  cbv zeta.
  assert (Ho : occupancy_inv
                 (fst (spawn_ev (new_car 0) (init (default_config 2 true)))))
    by (vm_compute; reflexivity).
  split; [exact Ho|]. split.
  - exact (proj1 (proj2 occupancy_invariant) [1 # 2; 0] 3 2 _ Ho).
  - vm_compute. reflexivity.
Defined.

(** A station of two ports, one step at prices 3 and 2, then [reset]:
    the state vector starts with 3 and 2, on the fresh station with 0
    and 0. *)
Example reset_after_step :
  let cfg := default_config 2 true in
  get_state (reset (fst (fst (step [0; 0] 3 2 (@init car cfg)))))
    = [3; 2; 0; 0; 0; 0] /\
  get_state (@init car cfg) = [0; 0; 0; 0; 0; 0].
Proof. split; vm_compute; reflexivity. Qed.

(** Two ports, the first occupied: the caller's list [5, 7] is [5, 0]
    after the call. *)
Lemma step_mutates_actions_witness :
  let st := station (default_config 2 true) 1 in
  ports_inv st /\
  Z.of_nat (length [5; 7]) = n_ports (config st) /\
  snd (fst (step [5; 7] 3 2 st)) = [5; 0].
Proof.
  cbv zeta.
  assert (Hp : ports_inv (station (default_config 2 true) 1))
    by (vm_compute; reflexivity).
  assert (Hl : Z.of_nat (length [5; 7])
               = n_ports (config (station (default_config 2 true) 1)))
    by reflexivity.
  split; [exact Hp|]. split; [exact Hl|].
  now rewrite (proj1 (step_mutates_actions _ [5; 7] 3 2 Hp Hl)).
Defined.

(** ** The further properties at the scenario stations *)


Lemma step_departed_ports_witness :
  exists st' p,
    step [1 # 2; 1 # 2] 3 2 leaving_station
      = (st', [1 # 2; 1 # 2], Ok (p, [1], 0%Z)) /\
    length (evs_connected st') = 2%nat /\
    forall i ev, evs_connected st' !! i = Some (Some ev) ->
                 ev_is_departing 0 ev = false.
Proof.
  assert (Hstep : exists st' p,
            step [1 # 2; 1 # 2] 3 2 leaving_station
            = (st', [1 # 2; 1 # 2], Ok (p, [1], 0%Z)))
    by (eexists _, _; vm_compute; reflexivity).
  destruct Hstep as (st' & p & Hstep). exists st', p.
  destruct (step_departed_ports _ _ _ _ _ _ _ _ _ Hstep) as (H1 & _ & H3).
  split; [exact Hstep|]. split; [exact H3|exact H1].
Defined.

Lemma step_profit_nonneg_witness :
  exists st' p,
    0 <= 3 /\ 0 <= 2 /\
    step [1 # 2; 1 # 2] 3 2 leaving_station
      = (st', [1 # 2; 1 # 2], Ok (p, [1], 0%Z)) /\
    0 <= p.
Proof.
  assert (H3 : 0 <= 3) by (vm_compute; discriminate).
  assert (H2 : 0 <= 2) by (vm_compute; discriminate).
  assert (Hstep : exists st' p,
            step [1 # 2; 1 # 2] 3 2 leaving_station
            = (st', [1 # 2; 1 # 2], Ok (p, [1], 0%Z)))
    by (eexists _, _; vm_compute; reflexivity).
  destruct Hstep as (st' & p & Hstep). exists st', p.
  split; [exact H3|]. split; [exact H2|]. split; [exact Hstep|].
  exact (proj1 (step_profit_nonneg _ _ _ _ _ _ _ _ _ H3 H2 Hstep)).
Defined.

Lemma step_lookup_safe_witness :
  ports_inv leaving_station /\
  snd (step [5; -7] 3 2 leaving_station) <> Raise IndexError.
Proof.
  assert (Hp : ports_inv leaving_station) by (vm_compute; reflexivity).
  split; [exact Hp|].
  exact (proj1 (step_lookup_safe leaving_station [5; -7] 3 2 Hp)).
Defined.


(** One vehicle on a verbose station of two ports, no action. *)
Lemma step_verbose_idle_raises_witness :
  let st := fst (spawn_ev (new_car 100) (init (verbose_config 2))) in
  verbose (config st) = true /\
  ports_inv st /\
  Z.of_nat (length [0; 0]) = n_ports (config st) /\
  Forall (fun a => a == 0) [0; 0] /\
  - tolerance <= max_charge_current (config st) /\
  evs_connected st !! 0%nat = Some (Some (mkEV 0 (mkCar [] 100))) /\
  snd (step [0; 0] 3 2 st) = Raise UnboundLocalError.
Proof.
  cbv zeta.
  set (st := fst (spawn_ev (new_car 100) (init (verbose_config 2)))).
  assert (H1 : verbose (config st) = true) by reflexivity.
  assert (H2 : ports_inv st) by (vm_compute; reflexivity).
  assert (H3 : Z.of_nat (length [0; 0]) = n_ports (config st))
    by reflexivity.
  assert (H4 : Forall (fun a => a == 0) [0; 0])
    by (repeat constructor).
  assert (H5 : - tolerance <= max_charge_current (config st))
    by (vm_compute; discriminate).
  assert (H6 : evs_connected st !! 0%nat
               = Some (Some (mkEV 0 (mkCar [] 100)))) by reflexivity.
  repeat (split; [assumption|]).
  exact (step_verbose_idle_raises st [0; 0] 3 2 0%nat _ H1 H2 H3 H4 H5 H6).
Defined.

Lemma step_empty_station_witness :
  let st := init (default_config 2 true) in
  Forall (fun slot => slot = None) (evs_connected st) /\
  ports_inv st /\
  Z.of_nat (length [5; - 7]) = n_ports (config st) /\
  - tolerance <= max_charge_current (config st) /\
  snd (step [5; - 7] 3 2 st) = Ok (0, [], 2%Z) /\
  snd (fst (step [5; - 7] 3 2 st)) = [0; 0].
Proof.
  cbv zeta.
  set (st := @init car (default_config 2 true)).
  assert (H1 : Forall (fun slot => slot = None) (evs_connected st))
    by (repeat constructor).
  assert (H2 : ports_inv st) by (vm_compute; reflexivity).
  assert (H3 : Z.of_nat (length [5; - 7]) = n_ports (config st))
    by reflexivity.
  assert (H4 : - tolerance <= max_charge_current (config st))
    by (vm_compute; discriminate).
  repeat (split; [assumption|]).
  rewrite (step_empty_station st [5; - 7] 3 2 H1 H2 H3 H4).
  split; reflexivity.
Defined.

(** Action 0.5 requests 16 A, above the minimum of 8 A. *)
Lemma port_step_charge_witness :
  let st := station (default_config 1 true) 1 in
  evs_connected st !! 0%nat = Some (Some (mkEV 0 (mkCar [] 100))) /\
  0 < round5 (1 # 2) /\
  round5 (1 # 2) <= 1 /\
  min_charge_current (config st)
    <= round5 (1 # 2) * max_charge_current (config st) /\
  charge_amps (config st) (round5 (1 # 2))
    = round5 (1 # 2) * max_charge_current (config st) /\
  charge_amps (config st) (round5 (1 # 2)) == 16.
Proof.
  cbv zeta.
  set (st := station (default_config 1 true) 1).
  assert (H1 : evs_connected st !! 0%nat
               = Some (Some (mkEV 0 (mkCar [] 100)))) by reflexivity.
  assert (H2 : 0 < round5 (1 # 2)) by (vm_compute; reflexivity).
  assert (H3 : round5 (1 # 2) <= 1) by (vm_compute; discriminate).
  assert (H4 : min_charge_current (config st)
               <= round5 (1 # 2) * max_charge_current (config st))
    by (vm_compute; discriminate).
  repeat (split; [assumption|]).
  assert (H5 := proj1 (proj2 (port_step_charge 3 2 0%nat (1 # 2) st
                                (mkLocals 0 None None) _ H1 H2 H3)) H4).
  split; [exact H5|]. rewrite H5. vm_compute. reflexivity.
Defined.

(** The scenario vehicle reports a satisfaction of 1. *)
Lemma satisfaction_invariant_witness :
  (forall ev : EV car, 0 <= ev_get_user_satisfaction ev <= 1) /\
  0 <= get_avg_user_satisfaction
         (fst (fst (step [1 # 2; 1 # 2] 3 2 leaving_station))) <= 1.
Proof.
  assert (Hsat : forall ev : EV car, 0 <= ev_get_user_satisfaction ev <= 1).
  { intros ev. cbn. split; discriminate. }
  split; [exact Hsat|].
  destruct (satisfaction_invariant Hsat) as (Hinit & Hstep & Hspawn & _ & Havg).
  apply Havg, Hstep. unfold leaving_station.
  apply Hspawn, Hspawn, Hinit.
Defined.

Lemma get_state_shape_witness :
  let st := station (default_config 2 true) 1 in
  (forall t (ev : EV car), length (ev_get_state t ev) = 2%nat) /\
  length (get_state st) = 6%nat /\
  get_state st !! 4%nat = Some 0.
Proof.
  cbv zeta.
  assert (Hlen : forall t (ev : EV car), length (ev_get_state t ev) = 2%nat)
    by reflexivity.
  split; [exact Hlen|].
  destruct (get_state_shape (station (default_config 2 true) 1) Hlen)
    as (Hl & _ & _ & Hempty & _).
  split; [exact Hl|]. exact (proj1 (Hempty 1%nat eq_refl)).
Defined.

(** After the departure from [leaving_station], port 0 takes the next
    vehicle. *)
Lemma step_departure_frees_port_witness :
  exists st' p index,
    occupancy_inv leaving_station /\
    ports_inv leaving_station /\
    step [1 # 2; 1 # 2] 3 2 leaving_station
      = (st', [1 # 2; 1 # 2], Ok (p, [1], 0%Z)) /\
    [1] <> @nil Q /\
    evs_connected st' !! index = Some None /\
    snd (spawn_ev (new_car 9) st') = Ok index.
Proof.
  assert (Ho : occupancy_inv leaving_station) by (vm_compute; reflexivity).
  assert (Hp : ports_inv leaving_station) by (vm_compute; reflexivity).
  assert (Hstep : exists st' p,
            step [1 # 2; 1 # 2] 3 2 leaving_station
            = (st', [1 # 2; 1 # 2], Ok (p, [1], 0%Z)))
    by (eexists _, _; vm_compute; reflexivity).
  assert (Hne : [1] <> @nil Q) by discriminate.
  destruct Hstep as (st' & p & Hstep).
  destruct (step_departure_frees_port (new_car 9) _ _ _ _ _ _ _ _ _
              Ho Hp Hstep Hne) as (index & Hempty & Hspawn).
  exists st', p, index. repeat (split; [assumption|]). exact Hspawn.
Defined.

Lemma spawn_all_fresh_witness :
  let cfg := default_config 3 true in
  let evs := [new_car 5; new_car 6] in
  (Z.of_nat (length evs) <= n_ports cfg)%Z /\
  snd (spawn_all evs (init cfg)) = [Ok 0%nat; Ok 1%nat] /\
  n_evs_connected (fst (spawn_all evs (init cfg))) = 2%Z.
Proof.
  cbv zeta.
  assert (Hlen : (Z.of_nat (length [new_car 5; new_car 6])
                  <= n_ports (default_config 3 true))%Z)
    by (vm_compute; discriminate).
  split; [exact Hlen|].
  destruct (spawn_all_fresh (default_config 3 true)
              [new_car 5; new_car 6] Hlen) as (R1 & _ & R3).
  split; [exact R1|exact R3].
Defined.

(** One vehicle on two ports: one action is invalid. *)
Lemma step_invalid_count_witness :
  let st := station (default_config 2 true) 1 in
  exists st' p sat,
    occupancy_inv st /\
    ports_inv st /\
    step [5; 7] 3 2 st = (st', [5; 0], Ok (p, sat, 1%Z)) /\
    1%Z = (n_ports (config st) - n_evs_connected st)%Z.
Proof.
  cbv zeta.
  set (st := station (default_config 2 true) 1).
  assert (Ho : occupancy_inv st) by (vm_compute; reflexivity).
  assert (Hp : ports_inv st) by (vm_compute; reflexivity).
  assert (Hstep : exists st' p sat,
            step [5; 7] 3 2 st = (st', [5; 0], Ok (p, sat, 1%Z)))
    by (eexists _, _, _; vm_compute; reflexivity).
  destruct Hstep as (st' & p & sat & Hstep). exists st', p, sat.
  repeat (split; [assumption|]).
  exact (step_invalid_count st [5; 7] 3 2 _ _ _ _ _ Ho Hp Hstep).
Defined.
